(** * holistic_replay.py: replay of a recorded capture through the pipeline

    A shallow embedding of
    [examples/python/RVC2/RecordReplay/holistic_replay.py].  The script owns
    no data of its own: every statement is a call into the camera SDK
    ([depthai]), the display library ([cv2]) or the standard output.  The
    embedding therefore keeps the script's control flow and records, call by
    call, what it asks of these collaborators and what they answer. *)

From Stdlib Require Import List String Ascii ZArith Lia Bool Arith.
Import ListNotations.

Set Implicit Arguments.
Set Default Proof Using "Type".

(** ** Values of the SDK the script names *)

(** [dai.node.*]: the node types handed to [pipeline.create]. *)
Inductive NodeType := ColorCamera | MonoCamera | IMU | StereoDepth.

(** [dai.CameraBoardSocket]. *)
Inductive CameraBoardSocket := AUTO | CAM_A | CAM_B | CAM_C | CAM_D.

(** [dai.ColorCameraProperties.SensorResolution]. *)
Inductive SensorResolution := THE_1080_P | THE_4_K | THE_12_MP | THE_720_P.

(** [dai.IMUSensor]. *)
Inductive IMUSensor :=
| ACCELEROMETER_RAW | ACCELEROMETER | LINEAR_ACCELERATION | GRAVITY
| GYROSCOPE_RAW | GYROSCOPE_CALIBRATED | GYROSCOPE_UNCALIBRATED
| MAGNETOMETER_RAW | ROTATION_VECTOR.

(** The node outputs the script reads: [camRgb.preview] and [imu.out]. *)
Inductive Output := preview | out.

(** Python exceptions.  [SystemExit] is what [argparse] raises; every other
    failure of a collaborator is an [Error] carrying its message. *)
Inductive Exn :=
| SystemExit (code : Z)
| Error (what : string).

(** The objects of the collaborators are opaque to the script: it only
    receives them and hands them back.  [format] is the text an f-string
    produces for an IMU reading. *)
Class Objects := {
  PipelineObj : Type;
  NodeObj : Type;
  QueueObj : Type;
  ImgFrame : Type;
  CvFrame : Type;
  Reading : Type;
  format : Reading -> string
}.

(** [dai.IMUPacket] and [dai.IMUData], as far as the script reads them. *)
Record IMUPacket `{Objects} := {
  acceleroMeter : Reading;
  gyroscope : Reading
}.

Record IMUData `{Objects} := {
  packets : list IMUPacket
}.

(** ** Calls into the collaborators

    One constructor per call the script makes; the index is the type of the
    value the call returns. *)
Inductive Op `{Objects} : Type -> Type :=
| NewPipeline (createImplicitDevice : bool) : Op PipelineObj
| Enter (mgr : PipelineObj) : Op PipelineObj
| Exit (mgr : PipelineObj) (exc : option Exn) : Op bool
| Create (p : PipelineObj) (t : NodeType) : Op NodeObj
| SetBoardSocket (n : NodeObj) (s : CameraBoardSocket) : Op unit
| SetResolution (n : NodeObj) (r : SensorResolution) : Op unit
| SetVideoSize (n : NodeObj) (width height : Z) : Op unit
| SetFps (n : NodeObj) (fps : Z) : Op unit
| EnableIMUSensor (n : NodeObj) (s : IMUSensor) (rate : Z) : Op unit
| EnableHolisticReplay (p : PipelineObj) (path : string) : Op unit
| CreateOutputQueue (n : NodeObj) (o : Output) : Op QueueObj
| Start (p : PipelineObj) : Op unit
| IsRunning (p : PipelineObj) : Op bool
| GetFrame (q : QueueObj) : Op ImgFrame
| GetImu (q : QueueObj) : Op IMUData
| GetCvFrame (f : ImgFrame) : Op CvFrame
| Imshow (winname : string) (mat : CvFrame) : Op unit
| Print (line : string) : Op unit
| WaitKey (delay : Z) : Op Z.

(** A call either returns a value or raises. *)
Inductive Res (A : Type) :=
| Ok (a : A)
| Raise (e : Exn).
Arguments Raise {A} e.

(** One entry of the log: the call made and the answer received. *)
Inductive Event `{Objects} :=
| Ev {A : Type} (op : Op A) (r : Res A).

(** The collaborators: a state of their own and, for each call, the answer
    and the state after the call. *)
Class Collaborators `{Objects} := {
  World : Type;
  respond : forall A, Op A -> World -> Res A * World
}.

(** ** The monad of the script

    A computation takes the state of the collaborators and gives an outcome,
    the state after it and the calls it made, in order.  A loop that has not
    ended when the fuel is spent gives [OutOfFuel]. *)
Inductive Outcome (A : Type) :=
| Done (a : A)
| Raised (e : Exn)
| OutOfFuel.
Arguments Raised {A} e.
Arguments OutOfFuel {A}.

Section Script.
Context {Obj : Objects} {C : Collaborators}.

Definition M (A : Type) : Type := World -> Outcome A * World * list Event.

Definition ret {A} (a : A) : M A := fun w => (Done a, w, []).

Definition raise {A} (e : Exn) : M A := fun w => (Raised e, w, []).

Definition out_of_fuel {A} : M A := fun w => (OutOfFuel, w, []).

Definition bind {A B} (m : M A) (f : A -> M B) : M B :=
  fun w =>
    match m w with
    | (Done a, w1, t1) =>
        match f a w1 with
        | (o, w2, t2) => (o, w2, t1 ++ t2)
        end
    | (Raised e, w1, t1) => (Raised e, w1, t1)
    | (OutOfFuel, w1, t1) => (OutOfFuel, w1, t1)
    end.

Definition call {A} (op : Op A) : M A :=
  fun w =>
    match respond op w with
    | (Ok a, w') => (Done a, w', [Ev op (Ok a)])
    | (Raise e, w') => (Raised e, w', [Ev op (Raise e)])
    end.

End Script.

Declare Scope script_scope.
Delimit Scope script_scope with script.
Notation "x <- m ;; k" := (bind m (fun x => k))
  (at level 100, m at next level, right associativity) : script_scope.
Notation "m ;; k" := (bind m (fun _ => k))
  (at level 100, right associativity) : script_scope.
Open Scope script_scope.

(** ** Command line (lines 7-9)

    [parser.add_argument("-s", "--source", default=...)] followed by
    [parser.parse_args()].  The model covers the spellings [-s PATH],
    [--source PATH] and [--source=PATH], the help flag [argparse] adds by
    itself, and takes every other argument for a usage error; [argparse]
    leaves the process with status 0 after help and 2 after an error. *)
Record Namespace := { source : string }.

Definition default_source : string := "recordings/recording.tar.gz".

Definition option_like (s : string) : bool := String.prefix "-" s.

Definition explicit_source (a : string) : option string :=
  if String.prefix "--source=" a
  then Some (String.substring 9 (String.length a - 9) a)
  else None.

Fixpoint parse_from (ns : Namespace) (argv : list string) : Exn + Namespace :=
  match argv with
  | [] => inr ns
  | a :: rest =>
      if String.eqb a "-h" || String.eqb a "--help" then inl (SystemExit 0)
      else if String.eqb a "-s" || String.eqb a "--source" then
        match rest with
        | v :: rest' =>
            if option_like v then inl (SystemExit 2)
            else parse_from {| source := v |} rest'
        | [] => inl (SystemExit 2)
        end
      else
        match explicit_source a with
        | Some v => parse_from {| source := v |} rest
        | None => inl (SystemExit 2)
        end
  end.

Definition parse_args (argv : list string) : Exn + Namespace :=
  parse_from {| source := default_source |} argv.

(** [ord]: the code point of a character. *)
Definition ord (c : ascii) : Z := Z.of_nat (nat_of_ascii c).

(** ** The script *)

(** How a pass through the body of a [while] ends: at its last statement, or
    at a [break]. *)
Inductive Ctl := Next | Break.

Section Driver.
Context {Obj : Objects} {C : Collaborators}.

Definition lift {A} (r : Exn + A) : M A :=
  match r with
  | inl e => raise e
  | inr a => ret a
  end.

(** [for x in xs: body] (the body of the script's [for] has no [break]). *)
Fixpoint for_each {A} (xs : list A) (body : A -> M unit) : M unit :=
  match xs with
  | [] => ret tt
  | x :: xs' => body x ;; for_each xs' body
  end.

(** [while cond: body]. *)
Fixpoint while_ (fuel : nat) (cond : M bool) (body : M Ctl) : M unit :=
  match fuel with
  | O => out_of_fuel
  | S fuel' =>
      c <- cond ;;
      if c : bool then
        ctl <- body ;;
        match ctl with
        | Break => ret tt
        | Next => while_ fuel' cond body
        end
      else ret tt
  end.

(** [with mgr as target: body].  [__exit__] is called when the body ends or
    raises, with the exception if there is one; a true answer swallows the
    exception. *)
Definition with_ (mgr : PipelineObj) (body : PipelineObj -> M unit) : M unit :=
  target <- call (Enter mgr) ;;
  fun w =>
    match body target w with
    | (Done _, w1, t1) =>
        match call (Exit mgr None) w1 with
        | (Done _, w2, t2) => (Done tt, w2, t1 ++ t2)
        | (Raised e, w2, t2) => (Raised e, w2, t1 ++ t2)
        | (OutOfFuel, w2, t2) => (OutOfFuel, w2, t1 ++ t2)
        end
    | (Raised e, w1, t1) =>
        match call (Exit mgr (Some e)) w1 with
        | (Done true, w2, t2) => (Done tt, w2, t1 ++ t2)
        | (Done false, w2, t2) => (Raised e, w2, t1 ++ t2)
        | (Raised e', w2, t2) => (Raised e', w2, t1 ++ t2)
        | (OutOfFuel, w2, t2) => (OutOfFuel, w2, t1 ++ t2)
        end
    | (OutOfFuel, w1, t1) => (OutOfFuel, w1, t1)
    end.

(** Lines 41-43. *)
Definition print_packet (packet : IMUPacket) : M unit :=
  call (Print ("IMU Accelerometer: " ++ format (acceleroMeter packet))) ;;
  call (Print ("IMU Gyroscope: " ++ format (gyroscope packet))).

(** Lines 34-46: the body of the loop. *)
Definition loop_body (videoQueue imuQueue : QueueObj) : M Ctl :=
  videoIn <- call (GetFrame videoQueue) ;;
  imuData <- call (GetImu imuQueue) ;;
  frame <- call (GetCvFrame videoIn) ;;
  call (Imshow "video" frame) ;;
  for_each (packets imuData) print_packet ;;
  key <- call (WaitKey 1) ;;
  if (key =? ord "q")%Z then ret Break else ret Next.

(** Lines 33-46. *)
Definition run (fuel : nat) (pipeline : PipelineObj)
    (videoQueue imuQueue : QueueObj) : M unit :=
  while_ fuel (call (IsRunning pipeline)) (loop_body videoQueue imuQueue).

(** Lines 14-46: the block under [with]. *)
Definition block (fuel : nat) (args : Namespace) (pipeline : PipelineObj)
    : M unit :=
  camRgb <- call (Create pipeline ColorCamera) ;;
  call (SetBoardSocket camRgb CAM_A) ;;
  call (SetResolution camRgb THE_1080_P) ;;
  call (SetVideoSize camRgb 1920 1080) ;;
  call (SetFps camRgb 30) ;;
  imu <- call (Create pipeline IMU) ;;
  call (EnableIMUSensor imu ACCELEROMETER_RAW 500) ;;
  call (EnableIMUSensor imu GYROSCOPE_RAW 400) ;;
  call (EnableHolisticReplay pipeline (source args)) ;;
  videoQueue <- call (CreateOutputQueue camRgb preview) ;;
  imuQueue <- call (CreateOutputQueue imu out) ;;
  call (Start pipeline) ;;
  run fuel pipeline videoQueue imuQueue.

(** The whole script. *)
Definition main (fuel : nat) (argv : list string) : M unit :=
  args <- lift (parse_args argv) ;;
  mgr <- call (NewPipeline true) ;;
  with_ mgr (block fuel args).

End Driver.

(** ** Reading a log *)

Section Log.
Context {Obj : Objects}.

(** The frames the video queue delivered. *)
Definition frame_of (e : Event) : option ImgFrame :=
  match e with
  | @Ev _ _ op r =>
      match op in Op T return Res T -> option ImgFrame with
      | GetFrame _ => fun r => match r with Ok f => Some f | Raise _ => None end
      | _ => fun _ => None
      end r
  end.

(** The batches the IMU queue delivered. *)
Definition batch_of (e : Event) : option IMUData :=
  match e with
  | @Ev _ _ op r =>
      match op in Op T return Res T -> option IMUData with
      | GetImu _ => fun r => match r with Ok d => Some d | Raise _ => None end
      | _ => fun _ => None
      end r
  end.

(** The line a [print] was called with. *)
Definition line_of (e : Event) : option string :=
  match e with
  | @Ev _ _ op _ =>
      match op with
      | Print s => Some s
      | _ => None
      end
  end.

(** The wait a key poll was called with. *)
Definition delay_of (e : Event) : option Z :=
  match e with
  | @Ev _ _ op _ =>
      match op with
      | WaitKey d => Some d
      | _ => None
      end
  end.

(** The key code a poll answered. *)
Definition key_of (e : Event) : option Z :=
  match e with
  | @Ev _ _ op r =>
      match op in Op T return Res T -> option Z with
      | WaitKey _ => fun r => match r with Ok k => Some k | Raise _ => None end
      | _ => fun _ => None
      end r
  end.

(** The answer of an [isRunning] check. *)
Definition running_of (e : Event) : option bool :=
  match e with
  | @Ev _ _ op r =>
      match op in Op T return Res T -> option bool with
      | IsRunning _ =>
          fun r => match r with Ok b => Some b | Raise _ => None end
      | _ => fun _ => None
      end r
  end.

(** The path a replay was enabled with. *)
Definition replay_of (e : Event) : option string :=
  match e with
  | @Ev _ _ op _ =>
      match op with
      | EnableHolisticReplay _ path => Some path
      | _ => None
      end
  end.

(** The exception a call raised. *)
Definition fault_of (e : Event) : option Exn :=
  match e with
  | @Ev _ _ _ r =>
      match r with
      | Ok _ => None
      | Raise x => Some x
      end
  end.

(** The queue a frame was asked of, and the queue a batch was asked of. *)
Definition frame_call_of (e : Event) : option QueueObj :=
  match e with
  | @Ev _ _ op _ =>
      match op with
      | GetFrame q => Some q
      | _ => None
      end
  end.

Definition imu_call_of (e : Event) : option QueueObj :=
  match e with
  | @Ev _ _ op _ =>
      match op with
      | GetImu q => Some q
      | _ => None
      end
  end.

(** The type of node a [create] was called with. *)
Definition created_of (e : Event) : option NodeType :=
  match e with
  | @Ev _ _ op _ =>
      match op with
      | Create _ t => Some t
      | _ => None
      end
  end.

(** The sensor and rate an [enableIMUSensor] was called with. *)
Definition sensor_of (e : Event) : option (IMUSensor * Z) :=
  match e with
  | @Ev _ _ op _ =>
      match op with
      | EnableIMUSensor _ s rate => Some (s, rate)
      | _ => None
      end
  end.

Definition is_start (e : Event) : bool :=
  match e with
  | @Ev _ _ op _ => match op with Start _ => true | _ => false end
  end.

(** Calls that describe the graph: node creation, node properties, the
    replay source and the output queues. *)
Definition is_config (e : Event) : bool :=
  match e with
  | @Ev _ _ op _ =>
      match op with
      | Create _ _ | SetBoardSocket _ _ | SetResolution _ _
      | SetVideoSize _ _ _ | SetFps _ _ | EnableIMUSensor _ _ _
      | EnableHolisticReplay _ _ | CreateOutputQueue _ _ => true
      | _ => false
      end
  end.

(** The step of the loop body a call belongs to: 1 video retrieval, 2 IMU
    retrieval, 3 conversion and display, 4 text output, 5 key poll; 0 for a
    call the body does not make. *)
Definition step_of (e : Event) : nat :=
  match e with
  | @Ev _ _ op _ =>
      match op with
      | GetFrame _ => 1
      | GetImu _ => 2
      | GetCvFrame _ | Imshow _ _ => 3
      | Print _ => 4
      | WaitKey _ => 5
      | _ => 0
      end
  end.

Fixpoint collect {A B} (f : A -> option B) (l : list A) : list B :=
  match l with
  | [] => []
  | x :: l' =>
      match f x with
      | Some b => b :: collect f l'
      | None => collect f l'
      end
  end.

Definition frames (t : list Event) : list ImgFrame := collect frame_of t.
Definition batches (t : list Event) : list IMUData := collect batch_of t.
Definition printed (t : list Event) : list string := collect line_of t.
Definition poll_delays (t : list Event) : list Z := collect delay_of t.
Definition keys (t : list Event) : list Z := collect key_of t.
Definition checks (t : list Event) : list bool := collect running_of t.
Definition replay_paths (t : list Event) : list string := collect replay_of t.
Definition faults (t : list Event) : list Exn := collect fault_of t.
Definition created (t : list Event) : list NodeType := collect created_of t.
Definition sensors (t : list Event) : list (IMUSensor * Z) :=
  collect sensor_of t.
Definition frame_calls (t : list Event) : list QueueObj :=
  collect frame_call_of t.
Definition imu_calls (t : list Event) : list QueueObj :=
  collect imu_call_of t.

(** Iterations begun: [isRunning] checks answered true. *)
Definition started (t : list Event) : nat :=
  List.length (filter (fun b : bool => b) (checks t)).

(** Iterations completed: key polls answered. *)
Definition completed (t : list Event) : nat := List.length (keys t).

Definition prefix_of {A} (l1 l2 : list A) : Prop := exists l3, l2 = l1 ++ l3.

(** *** The log of one pass through the loop body *)

Definition accel_line (p : IMUPacket) : string :=
  "IMU Accelerometer: " ++ format (acceleroMeter p).

Definition gyro_line (p : IMUPacket) : string :=
  "IMU Gyroscope: " ++ format (gyroscope p).

Definition packet_lines (p : IMUPacket) : list string :=
  [accel_line p; gyro_line p].

Definition emission (p : IMUPacket) : list Event :=
  [Ev (Print (accel_line p)) (Ok tt); Ev (Print (gyro_line p)) (Ok tt)].

Definition emissions (ps : list IMUPacket) : list Event := flat_map emission ps.

Definition iteration_head (vq iq : QueueObj) (f : ImgFrame) (d : IMUData)
    (m : CvFrame) : list Event :=
  [Ev (GetFrame vq) (Ok f); Ev (GetImu iq) (Ok d);
   Ev (GetCvFrame f) (Ok m); Ev (Imshow "video" m) (Ok tt)].

Definition iteration_trace (vq iq : QueueObj) (f : ImgFrame) (d : IMUData)
    (m : CvFrame) (k : Z) : list Event :=
  iteration_head vq iq f d m ++ emissions (packets d)
    ++ [Ev (WaitKey 1) (Ok k)].

Definition ctl_of_key (k : Z) : Ctl :=
  if (k =? ord "q")%Z then Break else Next.

(** The text output stops at the first [print] that raises. *)
Inductive emit_fault (e : Exn) : list IMUPacket -> list Event -> Prop :=
| ef_accel p ps :
    emit_fault e (p :: ps) [Ev (Print (accel_line p)) (Raise e)]
| ef_gyro p ps :
    emit_fault e (p :: ps)
      [Ev (Print (accel_line p)) (Ok tt); Ev (Print (gyro_line p)) (Raise e)]
| ef_later p ps t :
    emit_fault e ps t -> emit_fault e (p :: ps) (emission p ++ t).

(** Every way a pass through the body can go. *)
Inductive body_run (vq iq : QueueObj) : Outcome Ctl -> list Event -> Prop :=
| br_frame e :
    body_run vq iq (Raised e) [Ev (GetFrame vq) (Raise e)]
| br_imu f e :
    body_run vq iq (Raised e)
      [Ev (GetFrame vq) (Ok f); Ev (GetImu iq) (Raise e)]
| br_convert f d e :
    body_run vq iq (Raised e)
      [Ev (GetFrame vq) (Ok f); Ev (GetImu iq) (Ok d);
       Ev (GetCvFrame f) (Raise e)]
| br_show f d m e :
    body_run vq iq (Raised e)
      [Ev (GetFrame vq) (Ok f); Ev (GetImu iq) (Ok d);
       Ev (GetCvFrame f) (Ok m); Ev (Imshow "video" m) (Raise e)]
| br_print f d m e t :
    emit_fault e (packets d) t ->
    body_run vq iq (Raised e) (iteration_head vq iq f d m ++ t)
| br_poll f d m e :
    body_run vq iq (Raised e)
      (iteration_head vq iq f d m ++ emissions (packets d)
         ++ [Ev (WaitKey 1) (Raise e)])
| br_done f d m k :
    body_run vq iq (Done (ctl_of_key k)) (iteration_trace vq iq f d m k).

(** Every way the loop can go: [n] is the fuel. *)
Inductive loop_run (p : PipelineObj) (vq iq : QueueObj)
    : nat -> Outcome unit -> list Event -> Prop :=
| lr_fuel :
    loop_run p vq iq 0 OutOfFuel []
| lr_check n e :
    loop_run p vq iq (S n) (Raised e) [Ev (IsRunning p) (Raise e)]
| lr_stop n :
    loop_run p vq iq (S n) (Done tt) [Ev (IsRunning p) (Ok false)]
| lr_fault n e t :
    body_run vq iq (Raised e) t ->
    loop_run p vq iq (S n) (Raised e) (Ev (IsRunning p) (Ok true) :: t)
| lr_break n f d m :
    loop_run p vq iq (S n) (Done tt)
      (Ev (IsRunning p) (Ok true) :: iteration_trace vq iq f d m (ord "q"))
| lr_next n f d m k o t :
    k <> ord "q" ->
    loop_run p vq iq n o t ->
    loop_run p vq iq (S n) o
      (Ev (IsRunning p) (Ok true) :: iteration_trace vq iq f d m k ++ t).

End Log.

(** ** The log of the whole script *)

Section ScriptLog.
Context {Obj : Objects}.

Definition is_check (e : Event) : bool :=
  match e with
  | @Ev _ _ op _ => match op with IsRunning _ => true | _ => false end
  end.

Definition begins (e : Event) : bool :=
  match running_of e with
  | Some true => true
  | _ => false
  end.

(** The calls made up to the next [isRunning] check. *)
Fixpoint until_check (t : list Event) : list Event :=
  match t with
  | [] => []
  | e :: t' => if is_check e then [] else e :: until_check t'
  end.

(** The log of a loop cut into its iterations: one entry for every
    [isRunning] check answered true, holding the calls made from there to
    the next check. *)
Fixpoint iterations (t : list Event) : list (list Event) :=
  match t with
  | [] => []
  | e :: t' =>
      if begins e then until_check t' :: iterations t' else iterations t'
  end.

(** The last entry of a log. *)
Fixpoint final (t : list Event) : option Event :=
  match t with
  | [] => None
  | e :: t' =>
      match final t' with
      | Some e' => Some e'
      | None => Some e
      end
  end.

(** Lines 14-29 when every call returns. *)
Definition config_trace (p : PipelineObj) (cam imu : NodeObj)
    (vq iq : QueueObj) (path : string) : list Event :=
  [Ev (Create p ColorCamera) (Ok cam);
   Ev (SetBoardSocket cam CAM_A) (Ok tt);
   Ev (SetResolution cam THE_1080_P) (Ok tt);
   Ev (SetVideoSize cam 1920 1080) (Ok tt);
   Ev (SetFps cam 30) (Ok tt);
   Ev (Create p IMU) (Ok imu);
   Ev (EnableIMUSensor imu ACCELEROMETER_RAW 500) (Ok tt);
   Ev (EnableIMUSensor imu GYROSCOPE_RAW 400) (Ok tt);
   Ev (EnableHolisticReplay p path) (Ok tt);
   Ev (CreateOutputQueue cam preview) (Ok vq);
   Ev (CreateOutputQueue imu out) (Ok iq)].

(** A call made while the graph is described, before [start]. *)
Definition early (path : string) (e : Event) : Prop :=
  is_start e = false /\ step_of e = 0 /\ is_check e = false /\
  (forall s, replay_of e = Some s -> s = path).

(** A call that neither describes the graph nor starts the pipeline. *)
Definition plain (e : Event) : Prop :=
  is_config e = false /\ is_start e = false.

(** Every way the block under [with] can go. *)
Inductive block_run (p : PipelineObj) (path : string) (fuel : nat)
    : Outcome unit -> list Event -> Prop :=
| bk_config e t :
    Forall (early path) t ->
    block_run p path fuel (Raised e) t
| bk_start cam imu vq iq e :
    block_run p path fuel (Raised e)
      (config_trace p cam imu vq iq path ++ [Ev (Start p) (Raise e)])
| bk_loop cam imu vq iq o t :
    loop_run p vq iq fuel o t ->
    block_run p path fuel o
      (config_trace p cam imu vq iq path ++ Ev (Start p) (Ok tt) :: t).

(** What [with] does when its block has ended. *)
Inductive leave (mgr : PipelineObj)
    : Outcome unit -> Outcome unit -> list Event -> Prop :=
| lv_done b :
    leave mgr (Done tt) (Done tt) [Ev (Exit mgr None) (Ok b)]
| lv_done_fault e :
    leave mgr (Done tt) (Raised e) [Ev (Exit mgr None) (Raise e)]
| lv_swallow e :
    leave mgr (Raised e) (Done tt) [Ev (Exit mgr (Some e)) (Ok true)]
| lv_pass e :
    leave mgr (Raised e) (Raised e) [Ev (Exit mgr (Some e)) (Ok false)]
| lv_fault e e' :
    leave mgr (Raised e) (Raised e') [Ev (Exit mgr (Some e)) (Raise e')]
| lv_fuel :
    leave mgr OutOfFuel OutOfFuel [].

(** Every way the script can go. *)
Inductive main_run (argv : list string) (fuel : nat)
    : Outcome unit -> list Event -> Prop :=
| mr_usage e :
    parse_args argv = inl e ->
    main_run argv fuel (Raised e) []
| mr_new args e :
    parse_args argv = inr args ->
    main_run argv fuel (Raised e) [Ev (NewPipeline true) (Raise e)]
| mr_enter args mgr e :
    parse_args argv = inr args ->
    main_run argv fuel (Raised e)
      [Ev (NewPipeline true) (Ok mgr); Ev (Enter mgr) (Raise e)]
| mr_block args mgr p ob tb o tx :
    parse_args argv = inr args ->
    block_run p (source args) fuel ob tb ->
    leave mgr ob o tx ->
    main_run argv fuel o
      (Ev (NewPipeline true) (Ok mgr) :: Ev (Enter mgr) (Ok p) :: tb ++ tx).

End ScriptLog.

(** ** More to read in a log *)

Section Display.
Context {Obj : Objects}.

(** The manager and the exception an [__exit__] was called with. *)
Definition exit_of (e : Event) : option (PipelineObj * option Exn) :=
  match e with
  | @Ev _ _ op _ =>
      match op with
      | Exit mgr exc => Some (mgr, exc)
      | _ => None
      end
  end.

(** The pipeline an [isRunning] was asked of. *)
Definition check_call_of (e : Event) : option PipelineObj :=
  match e with
  | @Ev _ _ op _ =>
      match op with
      | IsRunning p => Some p
      | _ => None
      end
  end.

(** The window and the image an [imshow] was called with. *)
Definition shown_of (e : Event) : option (string * CvFrame) :=
  match e with
  | @Ev _ _ op _ =>
      match op with
      | Imshow name mat => Some (name, mat)
      | _ => None
      end
  end.

(** The frame a [getCvFrame] was called on. *)
Definition convert_call_of (e : Event) : option ImgFrame :=
  match e with
  | @Ev _ _ op _ =>
      match op with
      | GetCvFrame f => Some f
      | _ => None
      end
  end.

(** The image a [getCvFrame] returned. *)
Definition converted_of (e : Event) : option CvFrame :=
  match e with
  | @Ev _ _ op r =>
      match op in Op T return Res T -> option CvFrame with
      | GetCvFrame _ =>
          fun r => match r with Ok m => Some m | Raise _ => None end
      | _ => fun _ => None
      end r
  end.

(** A [start] that returned. *)
Definition start_ok (e : Event) : bool :=
  match e with
  | @Ev _ _ op r =>
      match op with
      | Start _ => match r with Ok _ => true | Raise _ => false end
      | _ => false
      end
  end.

Definition exits (t : list Event) : list (PipelineObj * option Exn) :=
  collect exit_of t.
Definition check_calls (t : list Event) : list PipelineObj :=
  collect check_call_of t.
Definition shown (t : list Event) : list (string * CvFrame) :=
  collect shown_of t.
Definition convert_calls (t : list Event) : list ImgFrame :=
  collect convert_call_of t.
Definition converted (t : list Event) : list CvFrame :=
  collect converted_of t.

(** The exception that is on its way out of a block, read from its log. *)
Definition pending (t : list Event) : option Exn :=
  match faults t with
  | [] => None
  | e :: _ => Some e
  end.

End Display.

(** ** A scripted collaborator

    A small stand-in for the SDK and the display, used to run the script:
    objects are numbers, the pipeline answers [isRunning] from a list (and
    false once the list is exhausted), the display answers key polls from a
    list (and -1, no key, afterwards), and the video queue raises once its
    frames are used up. *)
Module Scripted.

#[local] Instance objects : Objects := {
  PipelineObj := nat;
  NodeObj := nat;
  QueueObj := nat;
  ImgFrame := nat;
  CvFrame := nat;
  Reading := nat;
  format := fun n => String (ascii_of_nat (48 + n)) EmptyString
}.

Record State := {
  fresh : nat;
  alive : list bool;
  pressed : list Z;
  recorded : nat
}.

Definition batch : IMUData :=
  {| packets := [ {| acceleroMeter := 1; gyroscope := 2 |};
                  {| acceleroMeter := 3; gyroscope := 4 |} ] |}.

Definition new_object (s : State) : Res nat * State :=
  (Ok (fresh s),
   {| fresh := S (fresh s); alive := alive s; pressed := pressed s;
      recorded := recorded s |}).

Definition answer (A : Type) (op : Op A) (s : State) : Res A * State :=
  match op in Op T return Res T * State with
  | NewPipeline _ => new_object s
  | Enter mgr => (Ok mgr, s)
  | Exit _ _ => (Ok false, s)
  | Create _ _ => new_object s
  | SetBoardSocket _ _ => (Ok tt, s)
  | SetResolution _ _ => (Ok tt, s)
  | SetVideoSize _ _ _ => (Ok tt, s)
  | SetFps _ _ => (Ok tt, s)
  | EnableIMUSensor _ _ _ => (Ok tt, s)
  | EnableHolisticReplay _ _ => (Ok tt, s)
  | CreateOutputQueue _ _ => new_object s
  | Start _ => (Ok tt, s)
  | IsRunning _ =>
      (Ok (hd false (alive s)),
       {| fresh := fresh s; alive := tl (alive s); pressed := pressed s;
          recorded := recorded s |})
  | GetFrame _ =>
      match recorded s with
      | O => (Raise (Error "end of recording"), s)
      | S n =>
          (Ok n,
           {| fresh := fresh s; alive := alive s; pressed := pressed s;
              recorded := n |})
      end
  | GetImu _ => (Ok batch, s)
  | GetCvFrame f => (Ok f, s)
  | Imshow _ _ => (Ok tt, s)
  | Print _ => (Ok tt, s)
  | WaitKey _ =>
      (Ok (hd (-1)%Z (pressed s)),
       {| fresh := fresh s; alive := alive s; pressed := tl (pressed s);
          recorded := recorded s |})
  end.

#[local] Instance collaborators : Collaborators := {
  World := State;
  respond := answer
}.

(** A recording of five frames, a pipeline that stays up for three checks,
    and the keys the user presses. *)
Definition session (ks : list Z) (frames_left : nat) : State :=
  {| fresh := 0; alive := [true; true; true]; pressed := ks;
     recorded := frames_left |}.

End Scripted.

(** ** The shape of every run *)

(** Case analysis on the answer to the next call of a run. *)
Ltac answer_call H :=
  match type of H with
  | context [respond ?op ?w] =>
      let E := fresh "E" in
      destruct (respond op w) as [[? | ?] ?] eqn:E; cbn in H
  end.

(** A run that has ended: its outcome, final state and log are known. *)
Ltac got H := injection H as <- <- <-.

Section Shapes.
Context {Obj : Objects} {C : Collaborators}.

Lemma print_packet_run (p : IMUPacket) (w : World) o w' t :
  print_packet p w = (o, w', t) ->
  (o = Done tt /\ t = emission p) \/
  (exists e, o = Raised e /\
     (t = [Ev (Print (accel_line p)) (Raise e)] \/
      t = [Ev (Print (accel_line p)) (Ok tt);
           Ev (Print (gyro_line p)) (Raise e)])).
Proof.
  unfold print_packet, bind, call. intros H.
  answer_call H.
  - answer_call H; got H.
    + left. destruct a, a0. split; reflexivity.
    + right. destruct a. eexists; split; [reflexivity | right; reflexivity].
  - got H. right. eexists; split; [reflexivity | left; reflexivity].
Qed.

Lemma for_each_print_run (ps : list IMUPacket) : forall (w : World) o w' t,
  for_each ps print_packet w = (o, w', t) ->
  (o = Done tt /\ t = emissions ps) \/
  (exists e, o = Raised e /\ emit_fault e ps t).
Proof.
  induction ps as [| p ps IH]; intros w o w' t H.
  - cbn in H. got H. left. split; reflexivity.
  - cbn [for_each] in H. unfold bind at 1 in H.
    destruct (print_packet p w) as [[o1 w1] t1] eqn:E1.
    apply print_packet_run in E1.
    destruct E1 as [[-> ->] | [e [-> Ht1]]].
    + destruct (for_each ps print_packet w1) as [[o2 w2] t2] eqn:E2.
      got H. apply IH in E2.
      destruct E2 as [[-> ->] | [e [-> Hf]]].
      * left. split; reflexivity.
      * right. exists e. split; [reflexivity |]. now apply ef_later.
    + got H. right. exists e. split; [reflexivity |].
      destruct Ht1 as [-> | ->]; constructor.
Qed.

Lemma loop_body_run (vq iq : QueueObj) (w : World) o w' t :
  loop_body vq iq w = (o, w', t) -> body_run vq iq o t.
Proof.
  unfold loop_body. intros H.
  unfold bind at 1 in H. unfold call at 1 in H. answer_call H;
    [| got H; constructor].
  unfold bind at 1 in H. unfold call at 1 in H. answer_call H;
    [| got H; constructor].
  unfold bind at 1 in H. unfold call at 1 in H. answer_call H;
    [| got H; constructor].
  unfold bind at 1 in H. unfold call at 1 in H. answer_call H;
    [| got H; constructor].
  unfold bind at 1 in H.
  destruct (for_each (packets a0) print_packet w3) as [[o5 w5] t5] eqn:E5.
  apply for_each_print_run in E5.
  destruct a2.
  destruct E5 as [[-> ->] | [e [-> Hf]]].
  - unfold bind at 1 in H. unfold call at 1 in H. answer_call H.
    + destruct (a2 =? ord "q")%Z eqn:Ek; cbn in H; got H.
      * replace Break with (ctl_of_key a2)
          by (unfold ctl_of_key; now rewrite Ek).
        apply (br_done vq iq a a0 a1 a2).
      * replace Next with (ctl_of_key a2)
          by (unfold ctl_of_key; now rewrite Ek).
        apply (br_done vq iq a a0 a1 a2).
    + got H. apply (br_poll vq iq a a0 a1 e).
  - got H. apply (br_print vq iq a a0 a1 Hf).
Qed.

End Shapes.

Section Runs.
Context {Obj : Objects} {C : Collaborators}.

Lemma body_done_inv (vq iq : QueueObj) c t :
  body_run vq iq (Done c) t ->
  exists f d m k, t = iteration_trace vq iq f d m k /\ c = ctl_of_key k.
Proof.
  intros H. inversion H; subst. now exists f, d, m, k.
Qed.

Lemma body_never_starves (vq iq : QueueObj) t :
  ~ body_run vq iq OutOfFuel t.
Proof. intros H. inversion H. Qed.

Lemma ctl_break k : ctl_of_key k = Break <-> k = ord "q".
Proof.
  unfold ctl_of_key. destruct (Z.eqb_spec k (ord "q")); split; intros H;
    congruence.
Qed.

Lemma ctl_next k : ctl_of_key k = Next <-> k <> ord "q".
Proof.
  unfold ctl_of_key. destruct (Z.eqb_spec k (ord "q")); split; intros H;
    congruence.
Qed.

(** The loop, one unfolding. *)
Lemma run_loop_run (p : PipelineObj) (vq iq : QueueObj) (fuel : nat) :
  forall (w : World) o w' t,
    run fuel p vq iq w = (o, w', t) -> loop_run p vq iq fuel o t.
Proof.
  induction fuel as [| n IH]; intros w o w' t H.
  - cbn in H. got H. constructor.
  - unfold run in H. cbn [while_] in H.
    unfold bind at 1 in H. unfold call at 1 in H. answer_call H;
      [| got H; constructor].
    destruct a.
    + unfold bind at 1 in H.
      destruct (loop_body vq iq w0) as [[ob wb] tb] eqn:Eb.
      apply loop_body_run in Eb.
      destruct ob as [c | e |].
      * apply body_done_inv in Eb. destruct Eb as (f & d & m & k & -> & ->).
        destruct (ctl_of_key k) eqn:Ek.
        -- fold (run n p vq iq) in H.
           destruct (run n p vq iq wb) as [[o2 w2] t2] eqn:E2.
           got H. apply IH in E2. apply ctl_next in Ek.
           now apply lr_next.
        -- cbn in H. got H. apply ctl_break in Ek. subst k.
           rewrite app_nil_r. apply lr_break.
      * got H. now apply lr_fault.
      * now apply body_never_starves in Eb.
    + cbn in H. got H. constructor.
Qed.

Ltac units :=
  repeat match goal with u : unit |- _ => destruct u end.

Ltac all_early :=
  repeat (apply Forall_cons;
          [ repeat split; try reflexivity; cbn; intros; congruence | ]);
  apply Forall_nil.

Ltac next_call H :=
  unfold bind at 1 in H; unfold call at 1 in H; answer_call H.

(** Lines 14-46. *)
Lemma block_block_run (fuel : nat) (args : Namespace) (p : PipelineObj) :
  forall (w : World) o w' t,
    block fuel args p w = (o, w', t) ->
    block_run p (source args) fuel o t.
Proof.
  intros w o w' t H. unfold block in H.
  do 11 (next_call H; [| got H; units; apply bk_config; all_early]).
  next_call H.
  - match type of H with
    | context [run fuel p ?vq ?iq ?w1] =>
        destruct (run fuel p vq iq w1) as [[ol wl] tl] eqn:Erun
    end.
    got H. units. apply run_loop_run in Erun.
    eapply bk_loop in Erun. exact Erun.
  - got H. units. eapply bk_start.
Qed.

(** The whole script. *)
Lemma main_main_run (fuel : nat) (argv : list string) :
  forall (w : World) o w' t,
    main fuel argv w = (o, w', t) -> main_run argv fuel o t.
Proof.
  intros w o w' t H. unfold main in H.
  unfold bind at 1 in H.
  destruct (parse_args argv) as [e | args] eqn:Ep; cbn [lift] in H.
  - cbn in H. got H. now apply mr_usage.
  - unfold ret at 1 in H. cbn [app] in H.
    next_call H; [| got H; now apply mr_new with (args := args)].
    unfold with_ in H. next_call H;
      [| got H; now apply mr_enter with (args := args)].
    match type of H with
    | context [block fuel args ?q ?w1] =>
        destruct (block fuel args q w1) as [[ob wb] tb] eqn:Eb
    end.
    apply block_block_run in Eb.
    destruct ob as [[] | e |].
    + unfold call in H. answer_call H; got H;
        (eapply mr_block; [eassumption | eassumption | constructor]).
    + unfold call in H. answer_call H.
      * destruct a1; got H;
          (eapply mr_block; [eassumption | eassumption | constructor]).
      * got H. eapply mr_block; [eassumption | eassumption | constructor].
    + got H. rewrite <- (app_nil_r tb).
      eapply mr_block; [eassumption | eassumption | constructor].
Qed.

End Runs.

(** ** Facts about logs *)

Section LogFacts.
Context {Obj : Objects}.

Lemma some_eq {A} (a b : A) : Some a = Some b -> a = b.
Proof. intros H. now injection H. Qed.

Lemma collect_app {A B} (f : A -> option B) (l1 l2 : list A) :
  collect f (l1 ++ l2) = collect f l1 ++ collect f l2.
Proof.
  induction l1 as [| x l1 IH]; cbn; [reflexivity |].
  destruct (f x); cbn; now rewrite IH.
Qed.

Lemma collect_none {A B} (f : A -> option B) (l : list A) :
  Forall (fun x => f x = None) l -> collect f l = [].
Proof.
  induction 1 as [| x l Hx _ IH]; cbn; [reflexivity |].
  now rewrite Hx.
Qed.

Lemma emissions_quiet {B} (f : Event -> option B) (ps : list IMUPacket) :
  (forall s, f (Ev (Print s) (Ok tt)) = None) ->
  collect f (emissions ps) = [].
Proof.
  intros Hf. apply collect_none.
  induction ps as [| p ps IH]; cbn; [constructor |].
  repeat (constructor; [apply Hf |]). exact IH.
Qed.

Lemma printed_emissions (ps : list IMUPacket) :
  printed (emissions ps) = flat_map packet_lines ps.
Proof.
  unfold printed, emissions.
  induction ps as [| p ps IH]; [reflexivity |].
  cbn [flat_map]. rewrite collect_app, IH. reflexivity.
Qed.

Lemma final_app (l1 l2 : list Event) :
  final (l1 ++ l2) =
  match final l2 with
  | Some e => Some e
  | None => final l1
  end.
Proof.
  induction l1 as [| x l1 IH]; cbn.
  - now destruct (final l2).
  - rewrite IH. destruct (final l2); [reflexivity |].
    now destruct (final l1).
Qed.

Lemma final_last (l : list Event) (e : Event) : final (l ++ [e]) = Some e.
Proof. now rewrite final_app. Qed.

Lemma final_none (l : list Event) : final l = None -> l = [].
Proof.
  destruct l as [| x l]; [reflexivity |]. cbn.
  destruct (final l); discriminate.
Qed.

Lemma final_in (l : list Event) (e : Event) : final l = Some e -> In e l.
Proof.
  induction l as [| x l IH]; cbn; [discriminate |].
  destruct (final l) as [e' |] eqn:E.
  - intros H. right. apply IH. exact H.
  - intros H. left. congruence.
Qed.

Lemma collect_in {B} (f : Event -> option B) (l : list Event) e b :
  In e l -> f e = Some b -> In b (collect f l).
Proof.
  induction l as [| x l IH]; cbn; [tauto |].
  intros [-> | Hin] Hf.
  - rewrite Hf. now left.
  - destruct (f x); [right |]; now apply IH.
Qed.

(** Where an entry of a concatenation lies. *)
Lemma locate {A} (l1 l2 t0 t1 : list A) (x : A) :
  l1 ++ l2 = t0 ++ x :: t1 ->
  (exists m, l1 = t0 ++ x :: m /\ t1 = m ++ l2) \/
  (exists m, l2 = m ++ x :: t1 /\ t0 = l1 ++ m).
Proof.
  revert t0. induction l1 as [| a l1 IH]; intros t0 H.
  - right. exists t0. now split.
  - destruct t0 as [| b t0]; cbn in H; injection H as -> H.
    + left. exists l1. split; [reflexivity | now subst].
    + destruct (IH _ H) as [[m [-> ->]] | [m [-> ->]]].
      * left. now exists m.
      * right. now exists m.
Qed.

(** The log of a completed pass, read entry by entry. *)
Lemma iteration_frames vq iq f d m k :
  frames (iteration_trace vq iq f d m k) = [f].
Proof.
  unfold frames, iteration_trace. rewrite !collect_app.
  now rewrite emissions_quiet.
Qed.

Lemma iteration_batches vq iq f d m k :
  batches (iteration_trace vq iq f d m k) = [d].
Proof.
  unfold batches, iteration_trace. rewrite !collect_app.
  now rewrite emissions_quiet.
Qed.

Lemma iteration_keys vq iq f d m k :
  keys (iteration_trace vq iq f d m k) = [k].
Proof.
  unfold keys, iteration_trace. rewrite !collect_app.
  now rewrite emissions_quiet.
Qed.

Lemma iteration_delays vq iq f d m k :
  poll_delays (iteration_trace vq iq f d m k) = [1%Z].
Proof.
  unfold poll_delays, iteration_trace. rewrite !collect_app.
  now rewrite emissions_quiet.
Qed.

Lemma iteration_checks vq iq f d m k :
  checks (iteration_trace vq iq f d m k) = [].
Proof.
  unfold checks, iteration_trace. rewrite !collect_app.
  now rewrite emissions_quiet.
Qed.

Lemma iteration_faults vq iq f d m k :
  faults (iteration_trace vq iq f d m k) = [].
Proof.
  unfold faults, iteration_trace. rewrite !collect_app.
  now rewrite emissions_quiet.
Qed.

Lemma iteration_printed vq iq f d m k :
  printed (iteration_trace vq iq f d m k) = flat_map packet_lines (packets d).
Proof.
  unfold iteration_trace. unfold printed at 1. rewrite !collect_app.
  fold (printed (emissions (packets d))). rewrite printed_emissions.
  cbn. now rewrite app_nil_r.
Qed.

Lemma iteration_final vq iq f d m k :
  final (iteration_trace vq iq f d m k) = Some (Ev (WaitKey 1) (Ok k)).
Proof.
  unfold iteration_trace. now rewrite app_assoc, final_last.
Qed.

End LogFacts.

(** ** How the loop ends *)

Section LoopEnds.
Context {Obj : Objects} {C : Collaborators}.

Lemma fault_is_no_answer (ev : Event) e :
  fault_of ev = Some e -> running_of ev = None /\ key_of ev = None.
Proof.
  destruct ev as [A op r]. destruct r as [a | x]; cbn; [discriminate |].
  intros _. destruct op; split; reflexivity.
Qed.

Lemma emit_fault_final e ps t :
  emit_fault e ps t -> exists ev, final t = Some ev /\ fault_of ev = Some e.
Proof.
  induction 1 as [p ps | p ps | p ps t _ [ev [Hf He]]].
  - eexists. split; reflexivity.
  - eexists. split; reflexivity.
  - exists ev. rewrite final_app, Hf. now split.
Qed.

Lemma body_fault_final (vq iq : QueueObj) e t :
  body_run vq iq (Raised e) t ->
  exists ev, final t = Some ev /\ fault_of ev = Some e.
Proof.
  intros H. inversion H; subst; try (eexists; split; reflexivity).
  - match goal with Hf : emit_fault _ _ _ |- _ =>
      destruct (emit_fault_final Hf) as [ev [Hl He]] end.
    exists ev. rewrite final_app, Hl. now split.
  - eexists. rewrite app_assoc, final_last. split; reflexivity.
Qed.

(** The last entry of the log of a loop tells how the loop went. *)
Lemma loop_final (p : PipelineObj) (vq iq : QueueObj) n o t :
  loop_run p vq iq n o t ->
  match o with
  | Done _ =>
      final t = Some (Ev (IsRunning p) (Ok false)) \/
      final t = Some (Ev (WaitKey 1) (Ok (ord "q")))
  | Raised e => exists ev, final t = Some ev /\ fault_of ev = Some e
  | OutOfFuel =>
      t = [] \/
      exists k, final t = Some (Ev (WaitKey 1) (Ok k)) /\ k <> ord "q"
  end.
Proof.
  induction 1 as [| n e | n | n e t Hb | n f d m | n f d m k o t Hk Hl IH].
  - now left.
  - eexists. split; reflexivity.
  - now left.
  - destruct (body_fault_final Hb) as [ev [Hf He]].
    exists ev. cbn. rewrite Hf. now split.
  - right. change (Ev (IsRunning p) (Ok true) :: ?l) with
      ([Ev (IsRunning p) (Ok true)] ++ l).
    now rewrite final_app, iteration_final.
  - change (Ev (IsRunning p) (Ok true) :: ?l ++ t) with
      (([Ev (IsRunning p) (Ok true)] ++ l) ++ t).
    rewrite final_app. destruct o as [u | e |].
    + destruct IH as [-> | ->]; [now left | now right].
    + destruct IH as [ev [-> He]]. now exists ev.
    + right. destruct IH as [-> | [k' [-> Hk']]].
      * exists k. cbn [final]. rewrite final_app, iteration_final.
        now split.
      * now exists k'.
Qed.

(** More fuel does not change a run that ended. *)
Lemma run_more_fuel (p : PipelineObj) (vq iq : QueueObj) (fuel : nat) :
  forall (w : World) o w' t,
    run fuel p vq iq w = (o, w', t) ->
    o <> OutOfFuel ->
    forall extra, run (fuel + extra) p vq iq w = (o, w', t).
Proof.
  induction fuel as [| n IH]; intros w o w' t H Ho extra.
  - cbn in H. got H. congruence.
  - unfold run in H |- *. cbn [while_ Nat.add] in H |- *.
    unfold bind at 1 in H. unfold bind at 1.
    unfold call at 1 in H. unfold call at 1.
    destruct (respond (IsRunning p) w) as [[[] | e] w0]; cbn in H |- *;
      [| exact H | exact H].
    unfold bind at 1 in H. unfold bind at 1.
    destruct (loop_body vq iq w0) as [[[[] | e |] wb] tb]; try exact H.
    fold (run n p vq iq) in H. fold (run (n + extra) p vq iq).
    destruct (run n p vq iq wb) as [[o2 w2] t2] eqn:E2.
    got H. now rewrite (IH _ _ _ _ E2 Ho extra).
Qed.

(** The loop is over exactly when its log ends with one of the two answers
    that end it. *)
Lemma loop_over_iff
    (p : PipelineObj) (vq iq : QueueObj) (fuel : nat) (w : World) o w' t :
  run fuel p vq iq w = (o, w', t) ->
  (o = Done tt <->
     final t = Some (Ev (IsRunning p) (Ok false)) \/
     final t = Some (Ev (WaitKey 1) (Ok (ord "q")))).
Proof.
  intros H.
  assert (Hstop : forall ev,
            ev = Ev (IsRunning p) (Ok false) \/
            ev = Ev (WaitKey 1) (Ok (ord "q")) ->
            fault_of ev = None /\
            (forall k, ev = Ev (WaitKey 1) (Ok k) -> k = ord "q")).
  { intros ev [-> | ->]; split; try reflexivity; intros k Hk.
    - apply (f_equal key_of) in Hk. discriminate.
    - apply (f_equal key_of) in Hk. cbn in Hk. congruence. }
  pose proof (loop_final (run_loop_run _ _ _ _ _ H)) as Hf.
  split.
  - intros ->. exact Hf.
  - intros Hend. destruct o as [[] | e |]; [reflexivity | exfalso ..].
    + destruct Hf as [ev [Hl He]].
      assert (Hev : ev = Ev (IsRunning p) (Ok false) \/
                    ev = Ev (WaitKey 1) (Ok (ord "q")))
        by (destruct Hend as [Hend | Hend]; rewrite Hend in Hl;
            apply some_eq in Hl; [left | right]; now symmetry).
      apply Hstop in Hev. destruct Hev as [Hn _]. congruence.
    + destruct Hf as [-> | [k [Hl Hk]]];
        [destruct Hend; discriminate |].
      assert (Hev : Ev (WaitKey 1) (Ok k) = Ev (IsRunning p) (Ok false) \/
                    Ev (WaitKey 1) (Ok k) = Ev (WaitKey 1) (Ok (ord "q")))
        by (destruct Hend as [Hend | Hend]; rewrite Hend in Hl;
            apply some_eq in Hl; [left | right]; now symmetry).
      apply Hstop in Hev. destruct Hev as [_ Hq]. now apply Hk, Hq.
Qed.

End LoopEnds.

(** ** Iterations *)

Section Iterations.
Context {Obj : Objects} {C : Collaborators}.

Lemma emit_fault_quiet {B} (f : Event -> option B) e ps t :
  (forall s r, f (Ev (Print s) r) = None) ->
  emit_fault e ps t -> collect f t = [].
Proof.
  intros Hf. induction 1 as [p ps | p ps | p ps t _ IH]; cbn.
  - now rewrite Hf.
  - now rewrite !Hf.
  - now rewrite !Hf.
Qed.

Lemma emissions_no_check (ps : list IMUPacket) :
  Forall (fun e => is_check e = false) (emissions ps).
Proof.
  induction ps as [| p ps IH]; cbn; [constructor |].
  repeat (constructor; [reflexivity |]). exact IH.
Qed.

Lemma emit_fault_no_check e ps t :
  emit_fault e ps t -> Forall (fun e => is_check e = false) t.
Proof.
  induction 1 as [p ps | p ps | p ps t _ IH].
  - repeat constructor.
  - repeat constructor.
  - repeat (constructor; [reflexivity |]). exact IH.
Qed.

Lemma body_no_check (vq iq : QueueObj) ob it :
  body_run vq iq ob it -> Forall (fun e => is_check e = false) it.
Proof.
  intros H. inversion H; subst; unfold iteration_trace, iteration_head;
    rewrite ?Forall_app; repeat split;
    try (repeat (constructor; [reflexivity |]); constructor);
    try apply emissions_no_check.
  eapply emit_fault_no_check; eassumption.
Qed.

Lemma until_check_app (it t : list Event) :
  Forall (fun e => is_check e = false) it ->
  (t = [] \/ exists e t', t = e :: t' /\ is_check e = true) ->
  until_check (it ++ t) = it.
Proof.
  induction 1 as [| x it Hx _ IH]; intros Ht; cbn.
  - destruct Ht as [-> | (e & t' & -> & He)]; cbn; [reflexivity |].
    now rewrite He.
  - rewrite Hx. now rewrite IH.
Qed.

Lemma check_not_begins (e : Event) : is_check e = false -> begins e = false.
Proof.
  destruct e as [A op r]. unfold begins.
  destruct op; cbn; try reflexivity; discriminate.
Qed.

Lemma iterations_app (it t : list Event) :
  Forall (fun e => is_check e = false) it ->
  iterations (it ++ t) = iterations t.
Proof.
  induction 1 as [| x it Hx _ IH]; cbn; [reflexivity |].
  now rewrite (check_not_begins _ Hx).
Qed.

Lemma until_check_quiet (it : list Event) :
  Forall (fun e => is_check e = false) it -> until_check it = it.
Proof.
  intros H. rewrite <- (app_nil_r it) at 1.
  apply until_check_app; [exact H | now left].
Qed.

Lemma iterations_quiet (it : list Event) :
  Forall (fun e => is_check e = false) it -> iterations it = [].
Proof.
  intros H. rewrite <- (app_nil_r it). now rewrite iterations_app.
Qed.

Lemma loop_opens_with_check (p : PipelineObj) (vq iq : QueueObj) n o t :
  loop_run p vq iq n o t ->
  t = [] \/ exists e t', t = e :: t' /\ is_check e = true.
Proof.
  destruct 1; [now left | right ..]; eexists; eexists; split; reflexivity.
Qed.

(** The iterations of a loop are passes through its body. *)
Lemma loop_iterations (P : list Event -> Prop)
    (p : PipelineObj) (vq iq : QueueObj) n o t :
  (forall ob it, body_run vq iq ob it -> P it) ->
  loop_run p vq iq n o t -> Forall P (iterations t).
Proof.
  intros HP.
  induction 1 as [| n e | n | n e t Hb | n f d m | n f d m k o t Hk Hl IH];
    cbn [iterations begins running_of].
  - constructor.
  - constructor.
  - constructor.
  - pose proof (body_no_check Hb) as Hq.
    rewrite (until_check_quiet Hq), (iterations_quiet Hq).
    constructor; [| constructor]. now apply HP with (ob := Raised e).
  - pose proof (br_done vq iq f d m (ord "q")) as Hb.
    pose proof (body_no_check Hb) as Hq.
    rewrite (until_check_quiet Hq), (iterations_quiet Hq).
    constructor; [| constructor]. exact (HP _ _ Hb).
  - pose proof (br_done vq iq f d m k) as Hb.
    pose proof (body_no_check Hb) as Hq.
    rewrite (until_check_app Hq) by exact (loop_opens_with_check Hl).
    rewrite (iterations_app _ Hq).
    constructor; [exact (HP _ _ Hb) | exact IH].
Qed.

End Iterations.

(** ** Retrievals *)

Section Retrievals.
Context {Obj : Objects} {C : Collaborators}.

Ltac quiet_fault Hf :=
  rewrite ?(emit_fault_quiet frame_of (fun _ _ => eq_refl) Hf),
          ?(emit_fault_quiet batch_of (fun _ _ => eq_refl) Hf),
          ?(emit_fault_quiet key_of (fun _ _ => eq_refl) Hf),
          ?(emit_fault_quiet frame_call_of (fun _ _ => eq_refl) Hf),
          ?(emit_fault_quiet imu_call_of (fun _ _ => eq_refl) Hf),
          ?(emit_fault_quiet delay_of (fun _ _ => eq_refl) Hf),
          ?(emit_fault_quiet running_of (fun _ _ => eq_refl) Hf).

Ltac read_log :=
  unfold frames, batches, keys, frame_calls, imu_calls, poll_delays, checks,
    iteration_trace, iteration_head;
  rewrite ?collect_app;
  rewrite ?emissions_quiet by reflexivity;
  cbn [collect frame_of batch_of key_of frame_call_of imu_call_of delay_of
       running_of app List.length].

(** What one pass through the body takes from the queues. *)
Lemma body_retrievals (vq iq : QueueObj) ob it :
  body_run vq iq ob it ->
  frame_calls it = [vq] /\
  prefix_of (imu_calls it) [iq] /\
  List.length (batches it) <= List.length (frames it) <= 1 /\
  List.length (keys it) <= List.length (batches it) /\
  (keys it <> [] ->
     List.length (frames it) = 1 /\ List.length (batches it) = 1 /\
     imu_calls it = [iq] /\ List.length (keys it) = 1).
Proof.
  intros H. inversion H as [e | f e | f d e | f d m e | f d m e t Hf
                           | f d m e | f d m k]; subst;
    read_log; try quiet_fault Hf; cbn [List.length app];
    (split; [reflexivity |]);
    (split; [first [now exists [iq] | now exists []] |]);
    (split; [lia |]); (split; [lia |]);
    intros Hk; try (now elim Hk); auto.
Qed.

Lemma quiet_checks (t : list Event) :
  Forall (fun e => is_check e = false) t -> checks t = [].
Proof.
  intros H. apply collect_none. revert H. apply Forall_impl.
  intros [A op r]. destruct op; cbn; try reflexivity; discriminate.
Qed.

Lemma iterations_started (t : list Event) :
  List.length (iterations t) = started t.
Proof.
  unfold started, checks.
  induction t as [| [A op r] t IH]; [reflexivity |].
  destruct op; try exact IH.
  destruct r as [[] | e]; cbn; [now rewrite IH | exact IH | exact IH].
Qed.

(** One more iteration in front of a log. *)
Lemma lap_read {B} (g : Event -> option B) (p : PipelineObj)
    (vq iq : QueueObj) f d m k t :
  (forall s, g (Ev (Print s) (Ok tt)) = None) ->
  collect g (Ev (IsRunning p) (Ok true) :: iteration_trace vq iq f d m k ++ t)
  = collect g [Ev (IsRunning p) (Ok true)]
      ++ collect g (iteration_head vq iq f d m)
      ++ collect g [Ev (WaitKey 1) (Ok k)] ++ collect g t.
Proof.
  intros Hg.
  change (Ev (IsRunning p) (Ok true) :: iteration_trace vq iq f d m k ++ t)
    with ([Ev (IsRunning p) (Ok true)] ++ iteration_trace vq iq f d m k ++ t).
  unfold iteration_trace. rewrite !collect_app.
  rewrite (emissions_quiet _ _ Hg). cbn [app].
  now rewrite <- !app_assoc.
Qed.

(** What a run of the loop takes from the queues. *)
Lemma loop_retrievals (p : PipelineObj) (vq iq : QueueObj) n o t :
  loop_run p vq iq n o t ->
  (completed t <= List.length (batches t) <= List.length (frames t) /\
   List.length (frames t) <= started t <= S (completed t)) /\
  ((forall e, o <> Raised e) ->
     List.length (frames t) = completed t /\
     List.length (batches t) = completed t /\
     started t = completed t) /\
  (o = OutOfFuel -> completed t = n).
Proof.
  induction 1 as [| n e | n | n e t Hb | n f d m | n f d m k o t Hk Hl IH].
  - cbn. repeat split; lia.
  - cbn. repeat split; try lia; try discriminate;
      try (intros; exfalso;
           match goal with
           | Hn : forall x, Raised _ <> Raised x |- _ => now apply (Hn e)
           end).
  - cbn. repeat split; try lia; discriminate.
  - destruct (body_retrievals Hb) as (_ & _ & Hfb & Hkb & _).
    pose proof (quiet_checks (body_no_check Hb)) as Hc.
    unfold completed, started, frames, batches, keys, checks in *.
    cbn [collect frame_of batch_of key_of running_of filter List.length].
    rewrite Hc. cbn [filter List.length].
    repeat split; try lia; try discriminate;
      try (intros; exfalso;
           match goal with
           | Hn : forall x, Raised _ <> Raised x |- _ => now apply (Hn e)
           end).
  - rewrite <- (app_nil_r (iteration_trace vq iq f d m (ord "q"))).
    unfold completed, started, frames, batches, keys, checks.
    rewrite !lap_read by reflexivity. cbn.
    repeat split; try lia; discriminate.
  - destruct IH as ((Hchain1 & Hchain2) & Hok & Hfuel).
    unfold completed, started, frames, batches, keys, checks in *.
    rewrite !lap_read by reflexivity.
    cbn [collect frame_of batch_of key_of running_of iteration_head app
         filter List.length].
    split; [lia | split].
    + intros Hn. specialize (Hok Hn). lia.
    + intros Ho. specialize (Hfuel Ho). lia.
Qed.

(** C2.  Every iteration of the loop asks the video queue for exactly one
    frame and, unless that call raises, the IMU queue for exactly one batch;
    an iteration that reaches its key poll has received one frame and one
    batch.  Over a run, when no call has raised, the frames received, the
    batches received and the iterations begun all equal the number of
    completed iterations, which is the fuel for a run cut short by it. *)
Theorem one_frame_and_one_batch_per_iteration
    (p : PipelineObj) (vq iq : QueueObj) (fuel : nat) (w : World) o w' t :
  run fuel p vq iq w = (o, w', t) ->
  Forall (fun it =>
            frame_calls it = [vq] /\
            prefix_of (imu_calls it) [iq] /\
            List.length (batches it) <= List.length (frames it) <= 1 /\
            List.length (keys it) <= List.length (batches it) /\
            (keys it <> [] ->
               List.length (frames it) = 1 /\
               List.length (batches it) = 1 /\
               imu_calls it = [iq] /\ List.length (keys it) = 1))
         (iterations t) /\
  List.length (iterations t) = started t /\
  (completed t <= List.length (batches t) <= List.length (frames t) /\
   List.length (frames t) <= started t <= S (completed t)) /\
  ((forall e, o <> Raised e) ->
     List.length (frames t) = completed t /\
     List.length (batches t) = completed t /\
     started t = completed t) /\
  (o = OutOfFuel -> completed t = fuel).
Proof.
  intros H. apply run_loop_run in H.
  split; [| split; [apply iterations_started | exact (loop_retrievals H)]].
  exact (loop_iterations _ (fun ob it Hb => body_retrievals Hb) H).
Qed.

End Retrievals.

(** ** Faults *)

Section Faults.
Context {Obj : Objects} {C : Collaborators}.

Lemma emit_fault_faults e ps t : emit_fault e ps t -> faults t = [e].
Proof.
  unfold faults. induction 1 as [p ps | p ps | p ps t _ IH];
    cbn; [reflexivity | reflexivity | exact IH].
Qed.

Lemma body_faults (vq iq : QueueObj) ob it :
  body_run vq iq ob it ->
  faults it = match ob with Raised e => [e] | _ => [] end.
Proof.
  intros H. inversion H as [e | f e | f d e | f d m e | f d m e t Hf
                           | f d m e | f d m k]; subst;
    try reflexivity.
  - unfold faults. rewrite collect_app. cbn.
    exact (emit_fault_faults Hf).
  - unfold faults. rewrite !collect_app.
    now rewrite emissions_quiet.
  - apply iteration_faults.
Qed.

Lemma loop_faults (p : PipelineObj) (vq iq : QueueObj) n o t :
  loop_run p vq iq n o t ->
  faults t = match o with Raised e => [e] | _ => [] end.
Proof.
  induction 1 as [| n e | n | n e t Hb | n f d m | n f d m k o t Hk Hl IH];
    try reflexivity.
  - change (faults t = [e]). exact (body_faults Hb).
  - change (faults (iteration_trace vq iq f d m (ord "q")) = []).
    apply iteration_faults.
  - change (faults (iteration_trace vq iq f d m k ++ t)
            = match o with Raised e => [e] | _ => [] end).
    unfold faults in *. rewrite collect_app.
    fold (faults (iteration_trace vq iq f d m k)).
    now rewrite iteration_faults.
Qed.

(** A call of the loop that raises is the last call of the loop. *)
Lemma loop_fault_last (p : PipelineObj) (vq iq : QueueObj) n o t :
  loop_run p vq iq n o t ->
  forall t0 ev t1 e,
    t = t0 ++ ev :: t1 -> fault_of ev = Some e ->
    t1 = [] /\ o = Raised e.
Proof.
  intros H t0 ev t1 e -> Hev.
  pose proof (loop_faults H) as Hf.
  pose proof (loop_final H) as Hl.
  unfold faults in Hf. rewrite collect_app in Hf. cbn in Hf.
  rewrite Hev in Hf.
  destruct o as [u | e' |].
  - now destruct (collect fault_of t0).
  - assert (Hparts : collect fault_of t0 = [] /\ e = e' /\
                     collect fault_of t1 = []).
    { destruct (collect fault_of t0) as [| x l]; cbn in Hf.
      - injection Hf as -> ->. auto.
      - injection Hf as _ Hf. now destruct l. }
    destruct Hparts as (_ & <- & Ht1). split; [| reflexivity].
    destruct Hl as [ev' [Hfin He']].
    rewrite final_app in Hfin. cbn [final] in Hfin.
    destruct (final t1) as [x |] eqn:Ex.
    + apply some_eq in Hfin. subst x.
      pose proof (collect_in fault_of t1 ev' (final_in _ Ex) He') as Hin.
      rewrite Ht1 in Hin. destruct Hin.
    + now apply final_none.
  - now destruct (collect fault_of t0).
Qed.

Lemma off_the_body (l t0 t1 : list Event) (ev : Event) :
  Forall (fun x => step_of x = 0) l ->
  l = t0 ++ ev :: t1 -> step_of ev = 0.
Proof.
  intros Hl ->. rewrite Forall_forall in Hl. apply Hl.
  apply in_or_app. right. now left.
Qed.

Lemma early_off_the_body path (l : list Event) :
  Forall (early path) l -> Forall (fun x => step_of x = 0) l.
Proof. apply Forall_impl. now intros x (_ & Hx & _). Qed.

Lemma leave_off_the_body mgr ob o tx :
  leave mgr ob o tx -> Forall (fun x => step_of x = 0) tx.
Proof. destruct 1; repeat constructor. Qed.

(** C3.  Nothing in the loop catches a fault.  In a run of the loop, a call
    that raises (a queue retrieval, the conversion or display of the frame,
    a print, the key poll or the running check) is the last call of the run
    and its exception is the outcome of the run: no call is repeated and no
    iteration follows.  In the whole script, after such a fault in the body
    of the loop the only call left is the [__exit__] of the [with]
    statement, which receives the exception, and unless the pipeline object
    swallows it there the script ends with that exception. *)
Theorem no_fault_is_caught :
  (forall (p : PipelineObj) (vq iq : QueueObj) (fuel : nat) (w : World)
          o w' t,
     run fuel p vq iq w = (o, w', t) ->
     faults t = match o with Raised e => [e] | _ => [] end /\
     forall t0 ev t1 e,
       t = t0 ++ ev :: t1 -> fault_of ev = Some e ->
       t1 = [] /\ o = Raised e) /\
  (forall (fuel : nat) (argv : list string) (w : World) o w' t,
     main fuel argv w = (o, w', t) ->
     forall t0 ev t1 e,
       t = t0 ++ ev :: t1 -> fault_of ev = Some e -> step_of ev <> 0 ->
       exists mgr r,
         t1 = [Ev (Exit mgr (Some e)) r] /\
         (r = Ok false -> o = Raised e) /\
         (r = Ok true -> o = Done tt)).
Proof.
  split.
  - intros p vq iq fuel w o w' t H. apply run_loop_run in H.
    split; [exact (loop_faults H) | exact (loop_fault_last H)].
  - intros fuel argv w o w' t H t0 ev t1 e Ht Hev Hstep.
    apply main_main_run in H.
    destruct H as [e' Hp | args e' Hp | args mgr e' Hp
                  | args mgr p ob tb o tx Hp Hb Hx].
    + now destruct t0.
    + elim Hstep. eapply off_the_body; [| exact Ht]. repeat constructor.
    + elim Hstep. eapply off_the_body; [| exact Ht]. repeat constructor.
    + pose proof (leave_off_the_body Hx) as Hq.
      destruct Hb as [e' tb Hearly | cam imu vq iq e' | cam imu vq iq ob tl Hl].
      * elim Hstep. eapply off_the_body; [| exact Ht].
        repeat (constructor; [reflexivity |]).
        apply Forall_app. split; [| exact Hq].
        now apply early_off_the_body with (path := source args).
      * elim Hstep. eapply off_the_body; [| exact Ht].
        repeat (constructor; [reflexivity |]). exact Hq.
      * change (Ev (NewPipeline true) (Ok mgr) :: Ev (Enter mgr) (Ok p)
                :: (config_trace p cam imu vq iq (source args)
                      ++ Ev (Start p) (Ok tt) :: tl) ++ tx)
          with (([Ev (NewPipeline true) (Ok mgr); Ev (Enter mgr) (Ok p)]
                   ++ config_trace p cam imu vq iq (source args)
                   ++ [Ev (Start p) (Ok tt)]) ++ tl ++ tx) in Ht.
        apply locate in Ht. destruct Ht as [[m [Hpre _]] | [m [Ht _]]].
        { elim Hstep. eapply off_the_body; [| exact Hpre].
          repeat constructor. }
        apply locate in Ht. destruct Ht as [[m' [Htl ->]] | [m' [Htx _]]].
        { destruct (loop_fault_last Hl _ _ _ Htl Hev) as [-> ->].
          cbn [app]. inversion Hx; subst.
          - exists mgr, (Ok true). repeat split; try discriminate.
          - exists mgr, (Ok false). repeat split; try discriminate.
          - exists mgr, (Raise e'). repeat split; discriminate. }
        elim Hstep. eapply off_the_body; [exact Hq | exact Htx].
Qed.

End Faults.

(** ** The order of the steps *)

Section Order.
Context {Obj : Objects} {C : Collaborators}.

Lemma all_print_steps (t : list Event) :
  Forall (fun e => step_of e = 4) t ->
  map step_of t = repeat 4 (List.length t).
Proof.
  induction 1 as [| x t Hx _ IH]; cbn; [reflexivity |].
  now rewrite Hx, IH.
Qed.

Lemma emissions_print (ps : list IMUPacket) :
  Forall (fun e => step_of e = 4) (emissions ps).
Proof.
  induction ps as [| p ps IH]; cbn; [constructor |].
  repeat (constructor; [reflexivity |]). exact IH.
Qed.

Lemma emit_fault_print e ps t :
  emit_fault e ps t -> Forall (fun e => step_of e = 4) t.
Proof.
  induction 1 as [p ps | p ps | p ps t _ IH].
  - repeat constructor.
  - repeat constructor.
  - repeat (constructor; [reflexivity |]). exact IH.
Qed.

(** The steps of one pass through the body, in the order they are taken. *)
Lemma body_order (vq iq : QueueObj) ob it :
  body_run vq iq ob it ->
  (exists n,
     prefix_of (map step_of it) ([1; 2; 3; 3] ++ repeat 4 n ++ [5])) /\
  (exists r rest,
     it = Ev (GetFrame vq) r :: rest /\
     (rest = [] \/
      exists f r' rest',
        r = Ok f /\ rest = Ev (GetImu iq) r' :: rest' /\
        frame_calls rest' = [] /\ imu_calls rest' = [])) /\
  (keys it <> [] -> exists f d m k, it = iteration_trace vq iq f d m k).
Proof.
  intros H. inversion H as [e | f e | f d e | f d m e | f d m e t Hf
                           | f d m e | f d m k]; subst.
  - split; [exists 0; now exists [2; 3; 3; 5] |].
    split; [| intros Hk; now elim Hk].
    eexists. eexists. split; [reflexivity | now left].
  - split; [exists 0; now exists [3; 3; 5] |].
    split; [| intros Hk; now elim Hk].
    eexists. eexists. split; [reflexivity | right].
    eexists. eexists. eexists. repeat split.
  - split; [exists 0; now exists [3; 5] |].
    split; [| intros Hk; now elim Hk].
    eexists. eexists. split; [reflexivity | right].
    eexists. eexists. eexists. repeat split.
  - split; [exists 0; now exists [5] |].
    split; [| intros Hk; now elim Hk].
    eexists. eexists. split; [reflexivity | right].
    eexists. eexists. eexists. repeat split.
  - split; [| split].
    + exists (List.length t). exists [5]. rewrite map_app.
      now rewrite (all_print_steps (emit_fault_print Hf)).
    + eexists. eexists. split; [reflexivity | right].
      eexists. eexists. eexists. split; [reflexivity |].
      split; [reflexivity |]. cbn.
      now rewrite (emit_fault_quiet frame_call_of (fun _ _ => eq_refl) Hf),
        (emit_fault_quiet imu_call_of (fun _ _ => eq_refl) Hf).
    + intros Hk. elim Hk. unfold keys. rewrite collect_app. cbn.
      exact (emit_fault_quiet key_of (fun _ _ => eq_refl) Hf).
  - split; [| split].
    + exists (List.length (emissions (packets d))). exists [].
      rewrite !map_app, app_nil_r.
      now rewrite (all_print_steps (emissions_print (packets d))).
    + eexists. eexists. split; [reflexivity | right].
      eexists. eexists. eexists. split; [reflexivity |].
      split; [reflexivity |].
      unfold frame_calls, imu_calls. cbn. rewrite !collect_app.
      now rewrite !emissions_quiet.
    + intros Hk. elim Hk. unfold keys. rewrite !collect_app.
      now rewrite emissions_quiet.
  - split; [| split].
    + exists (List.length (emissions (packets d))). exists [].
      unfold iteration_trace. rewrite !map_app, app_nil_r.
      now rewrite (all_print_steps (emissions_print (packets d))).
    + eexists. eexists. split; [reflexivity | right].
      eexists. eexists. eexists. split; [reflexivity |].
      split; [reflexivity |].
      unfold frame_calls, imu_calls. cbn. rewrite !collect_app.
      now rewrite !emissions_quiet.
    + intros _. now exists f, d, m, k.
Qed.

(** C4.  In every iteration the steps are taken in one order: the frame is
    asked of the video queue first, then the batch of the IMU queue, then
    the frame is converted and shown in the window named "video", then the
    readings are printed, then the key is polled.  The steps of any
    iteration, cut short by a fault or not, are an initial part of that
    sequence; the iteration opens with the call for the frame, the call for
    the batch comes directly after it and only when a frame was delivered,
    and an iteration that reaches the poll made exactly the calls of a full
    iteration on the frame and batch it received. *)
Theorem steps_of_an_iteration_in_order
    (p : PipelineObj) (vq iq : QueueObj) (fuel : nat) (w : World) o w' t :
  run fuel p vq iq w = (o, w', t) ->
  Forall (fun it =>
            (exists n,
               prefix_of (map step_of it)
                 ([1; 2; 3; 3] ++ repeat 4 n ++ [5])) /\
            (exists r rest,
               it = Ev (GetFrame vq) r :: rest /\
               (rest = [] \/
                exists f r' rest',
                  r = Ok f /\ rest = Ev (GetImu iq) r' :: rest' /\
                  frame_calls rest' = [] /\ imu_calls rest' = [])) /\
            (keys it <> [] ->
               exists f d m k, it = iteration_trace vq iq f d m k))
         (iterations t).
Proof.
  intros H. apply run_loop_run in H.
  exact (loop_iterations _ (fun ob it Hb => body_order Hb) H).
Qed.

End Order.

(** ** Text output *)

Section Emissions.
Context {Obj : Objects} {C : Collaborators}.

Lemma packet_lines_count (ps : list IMUPacket) :
  List.length (flat_map packet_lines ps) = 2 * List.length ps.
Proof.
  induction ps as [| p ps IH]; cbn; [reflexivity |]. rewrite IH. lia.
Qed.

Lemma emit_fault_printed e ps t :
  emit_fault e ps t -> prefix_of (printed t) (flat_map packet_lines ps).
Proof.
  induction 1 as [p ps | p ps | p ps t _ [l IH]]; cbn.
  - now exists (gyro_line p :: flat_map packet_lines ps).
  - now exists (flat_map packet_lines ps).
  - exists l. unfold printed in *. cbn. now rewrite IH.
Qed.

(** What one pass through the body prints. *)
Lemma body_emissions (vq iq : QueueObj) ob it :
  body_run vq iq ob it ->
  (poll_delays it <> [] ->
     exists d, batches it = [d] /\
               printed it = flat_map packet_lines (packets d)) /\
  (forall d, batches it = [d] ->
             prefix_of (printed it) (flat_map packet_lines (packets d))) /\
  (batches it = [] -> printed it = []).
Proof.
  intros H. inversion H as [e | f e | f d e | f d m e | f d m e t Hf
                           | f d m e | f d m k]; subst.
  - repeat split; try (intros Hk; now elim Hk); discriminate.
  - repeat split; try (intros Hk; now elim Hk); discriminate.
  - split; [intros Hk; now elim Hk |]. split; [| discriminate].
    intros d' _. now exists (flat_map packet_lines (packets d')).
  - split; [intros Hk; now elim Hk |]. split; [| discriminate].
    intros d' _. now exists (flat_map packet_lines (packets d')).
  - assert (Hb : batches (iteration_head vq iq f d m ++ t) = [d]).
    { unfold batches. rewrite collect_app. cbn.
      now rewrite (emit_fault_quiet batch_of (fun _ _ => eq_refl) Hf). }
    split; [| split].
    + intros Hk. elim Hk. unfold poll_delays. rewrite collect_app. cbn.
      exact (emit_fault_quiet delay_of (fun _ _ => eq_refl) Hf).
    + intros d' Hd. rewrite Hb in Hd. injection Hd as <-.
      unfold printed. rewrite collect_app. cbn.
      exact (emit_fault_printed Hf).
    + rewrite Hb. discriminate.
  - assert (Hb : batches (iteration_head vq iq f d m ++ emissions (packets d)
                            ++ [Ev (WaitKey 1) (Raise e)]) = [d]).
    { unfold batches. rewrite !collect_app. now rewrite emissions_quiet. }
    assert (Hp : printed (iteration_head vq iq f d m ++ emissions (packets d)
                            ++ [Ev (WaitKey 1) (Raise e)])
                 = flat_map packet_lines (packets d)).
    { unfold printed. rewrite !collect_app.
      fold (printed (emissions (packets d))). rewrite printed_emissions.
      cbn. now rewrite app_nil_r. }
    split; [| split].
    + intros _. now exists d.
    + intros d' Hd. rewrite Hb in Hd. injection Hd as <-.
      rewrite Hp. exists []. now rewrite app_nil_r.
    + rewrite Hb. discriminate.
  - rewrite iteration_batches, iteration_printed.
    split; [| split].
    + intros _. now exists d.
    + intros d' Hd. injection Hd as <-. exists []. now rewrite app_nil_r.
    + discriminate.
Qed.

(** C5.  In every iteration that goes on to its key poll, the lines printed
    are, packet by packet and in the order of the batch received in that
    iteration, the accelerometer line and the gyroscope line of the packet,
    and nothing else: two lines for each packet, one emission of each
    reading.  An iteration cut short by a fault printed an initial part of
    these lines, and nothing when no batch was received. *)
Theorem one_emission_per_packet
    (p : PipelineObj) (vq iq : QueueObj) (fuel : nat) (w : World) o w' t :
  run fuel p vq iq w = (o, w', t) ->
  Forall (fun it =>
            (poll_delays it <> [] ->
               exists d,
                 batches it = [d] /\
                 printed it = flat_map packet_lines (packets d) /\
                 List.length (printed it) = 2 * List.length (packets d)) /\
            (forall d, batches it = [d] ->
               prefix_of (printed it) (flat_map packet_lines (packets d))) /\
            (batches it = [] -> printed it = []))
         (iterations t).
Proof.
  intros H. apply run_loop_run in H.
  apply (loop_iterations _ (p := p) (vq := vq) (iq := iq) (n := fuel)
           (o := o)); [| exact H].
  intros ob it Hb. destruct (body_emissions Hb) as (Hfull & Hpart & Hnone).
  split; [| split; assumption].
  intros Hk. destruct (Hfull Hk) as [d [Hd Hp]].
  exists d. repeat split; try assumption.
  rewrite Hp. apply packet_lines_count.
Qed.

End Emissions.

(** ** The key poll *)

Section Poll.
Context {Obj : Objects} {C : Collaborators}.

(** The polls of one pass through the body. *)
Lemma body_polls (vq iq : QueueObj) ob it :
  body_run vq iq ob it ->
  (poll_delays it = [] \/ poll_delays it = [1%Z]) /\
  (faults it = [] -> poll_delays it = [1%Z]).
Proof.
  intros H. pose proof (body_faults H) as Hfl.
  inversion H as [e | f e | f d e | f d m e | f d m e t Hf
                 | f d m e | f d m k]; subst;
    try (split; [now left | rewrite Hfl; discriminate]).
  - split; [| rewrite Hfl; discriminate].
    left. unfold poll_delays. rewrite collect_app. cbn.
    exact (emit_fault_quiet delay_of (fun _ _ => eq_refl) Hf).
  - split; [| rewrite Hfl; discriminate].
    right. unfold poll_delays. rewrite !collect_app.
    now rewrite emissions_quiet.
  - rewrite iteration_delays. split; [now right | reflexivity].
Qed.

Lemma loop_polls (p : PipelineObj) (vq iq : QueueObj) n o t :
  loop_run p vq iq n o t -> Forall (fun d => d = 1%Z) (poll_delays t).
Proof.
  induction 1 as [| n e | n | n e t Hb | n f d m | n f d m k o t Hk Hl IH];
    try (now constructor).
  - change (Forall (fun d => d = 1%Z) (poll_delays t)).
    destruct (body_polls Hb) as [[-> | ->] _]; repeat constructor.
  - change (Forall (fun d => d = 1%Z)
              (poll_delays (iteration_trace vq iq f d m (ord "q")))).
    rewrite iteration_delays. repeat constructor.
  - unfold poll_delays in *. rewrite lap_read by reflexivity.
    cbn. now constructor.
Qed.

(** C6.  The key poll is a call of [waitKey] with a wait of 1, and of
    nothing else: every poll in a run of the loop is made with the wait 1,
    an iteration polls at most once, and an iteration in which no call
    raised polled exactly once. *)
Theorem poll_waits_one_unit
    (p : PipelineObj) (vq iq : QueueObj) (fuel : nat) (w : World) o w' t :
  run fuel p vq iq w = (o, w', t) ->
  Forall (fun d => d = 1%Z) (poll_delays t) /\
  Forall (fun it =>
            (poll_delays it = [] \/ poll_delays it = [1%Z]) /\
            (faults it = [] -> poll_delays it = [1%Z]))
         (iterations t).
Proof.
  intros H. apply run_loop_run in H. split.
  - exact (loop_polls H).
  - exact (loop_iterations _ (fun ob it Hb => body_polls Hb) H).
Qed.

End Poll.

(** ** Configuration *)

Section Configuration.
Context {Obj : Objects} {C : Collaborators}.

Lemma config_silent (e : Event) :
  is_config e = false ->
  replay_of e = None /\ created_of e = None /\ sensor_of e = None.
Proof.
  destruct e as [A op r]. intros Hc.
  destruct op; cbn in Hc; try discriminate; repeat split.
Qed.

Lemma plain_collect {B} (g : Event -> option B) (t : list Event) :
  (forall e, is_config e = false -> g e = None) ->
  Forall plain t -> collect g t = [].
Proof.
  intros Hg Ht. apply collect_none. revert Ht. apply Forall_impl.
  intros e [He _]. now apply Hg.
Qed.

Lemma print_plain (t : list Event) :
  Forall (fun e => step_of e = 4) t -> Forall plain t.
Proof.
  apply Forall_impl. intros [A op r].
  destruct op; cbn; try discriminate. intros _. now split.
Qed.

Lemma body_plain (vq iq : QueueObj) ob it :
  body_run vq iq ob it -> Forall plain it.
Proof.
  intros H. inversion H as [e | f e | f d e | f d m e | f d m e t Hf
                           | f d m e | f d m k]; subst;
    unfold iteration_trace, iteration_head; rewrite ?Forall_app;
    repeat split;
    try (repeat (constructor; [now split |]); constructor);
    try (apply print_plain, emissions_print).
  apply print_plain. exact (emit_fault_print Hf).
Qed.

Lemma loop_plain (p : PipelineObj) (vq iq : QueueObj) n o t :
  loop_run p vq iq n o t -> Forall plain t.
Proof.
  induction 1 as [| n e | n | n e t Hb | n f d m | n f d m k o t Hk Hl IH].
  - constructor.
  - repeat constructor.
  - repeat constructor.
  - constructor; [now split | exact (body_plain Hb)].
  - constructor; [now split |].
    exact (body_plain (br_done vq iq f d m (ord "q"))).
  - constructor; [now split |]. apply Forall_app. split; [| exact IH].
    exact (body_plain (br_done vq iq f d m k)).
Qed.

Lemma leave_plain mgr ob o tx : leave mgr ob o tx -> Forall plain tx.
Proof. destruct 1; repeat constructor. Qed.

Lemma early_not_started path (t : list Event) :
  Forall (early path) t -> existsb is_start t = false.
Proof.
  induction 1 as [| x t (Hx & _) _ IH]; cbn; [reflexivity |].
  now rewrite Hx, IH.
Qed.

Lemma plain_not_started (t : list Event) :
  Forall plain t -> existsb is_start t = false.
Proof.
  induction 1 as [| x t (_ & Hx) _ IH]; cbn; [reflexivity |].
  now rewrite Hx, IH.
Qed.

Lemma early_replay path (t : list Event) :
  Forall (early path) t -> Forall (fun s => s = path) (replay_paths t).
Proof.
  unfold replay_paths.
  induction 1 as [| x t (_ & _ & _ & Hx) _ IH]; cbn; [constructor |].
  destruct (replay_of x) as [s |]; [| exact IH].
  constructor; [now apply Hx | exact IH].
Qed.

(** The script, seen from its configuration: either the pipeline is never
    started, or the log is the full description of the graph, the call of
    [start], and calls that describe nothing. *)
Lemma main_configured (argv : list string) (fuel : nat) o t :
  main_run argv fuel o t ->
  (existsb is_start t = false /\
   forall args, parse_args argv = inr args ->
                Forall (fun s => s = source args) (replay_paths t)) \/
  (exists args mgr p cam imu vq iq r rest,
     parse_args argv = inr args /\
     t = Ev (NewPipeline true) (Ok mgr) :: Ev (Enter mgr) (Ok p)
           :: config_trace p cam imu vq iq (source args)
           ++ Ev (Start p) r :: rest /\
     Forall plain rest).
Proof.
  intros H.
  destruct H as [e' Hp | args e' Hp | args mgr e' Hp
                | args mgr p ob tb o tx Hp Hb Hx].
  - left. split; [reflexivity | constructor].
  - left. split; [reflexivity | constructor].
  - left. split; [reflexivity | constructor].
  - pose proof (leave_plain Hx) as Hq.
    destruct Hb as [e' tb Hearly | cam imu vq iq e' | cam imu vq iq ob tl Hl].
    + left. split.
      * cbn. rewrite existsb_app, (early_not_started Hearly).
        now rewrite (plain_not_started Hq).
      * intros args' Hp'. rewrite Hp in Hp'. injection Hp' as <-.
        unfold replay_paths. cbn. rewrite collect_app.
        apply Forall_app. split; [exact (early_replay Hearly) |].
        rewrite (plain_collect replay_of
                   (fun e He => proj1 (config_silent e He)) Hq).
        constructor.
    + right. exists args, mgr, p, cam, imu, vq, iq, (Raise e'), tx.
      split; [exact Hp |]. split; [| exact Hq].
      now rewrite <- app_assoc.
    + right. exists args, mgr, p, cam, imu, vq, iq, (Ok tt), (tl ++ tx).
      split; [exact Hp |]. split.
      * now rewrite <- app_assoc.
      * apply Forall_app. split; [exact (loop_plain Hl) | exact Hq].
Qed.

Lemma configured_read {B} (g : Event -> option B) mgr p cam imu vq iq
    path r rest :
  (forall e, is_config e = false -> g e = None) ->
  Forall plain rest ->
  collect g (Ev (NewPipeline true) (Ok mgr) :: Ev (Enter mgr) (Ok p)
               :: config_trace p cam imu vq iq path ++ Ev (Start p) r :: rest)
  = collect g (config_trace p cam imu vq iq path).
Proof.
  intros Hg Hrest.
  change (Ev (NewPipeline true) (Ok mgr) :: Ev (Enter mgr) (Ok p)
            :: config_trace p cam imu vq iq path ++ Ev (Start p) r :: rest)
    with ([Ev (NewPipeline true) (Ok mgr); Ev (Enter mgr) (Ok p)]
            ++ config_trace p cam imu vq iq path
            ++ [Ev (Start p) r] ++ rest).
  rewrite !collect_app. rewrite (plain_collect g Hg Hrest).
  cbn [collect app].
  rewrite !Hg by reflexivity. now rewrite app_nil_r.
Qed.

(** C7.  With no argument on the command line the parser gives the default
    "recordings/recording.tar.gz" for the source, and the script hands that
    very string to [enableHolisticReplay]: no other path is ever handed to
    the pipeline, and when the pipeline is started it has been handed this
    path exactly once. *)
Theorem default_source_is_replayed :
  parse_args [] = inr {| source := "recordings/recording.tar.gz" |} /\
  forall (fuel : nat) (w : World) o w' t,
    main fuel [] w = (o, w', t) ->
    Forall (fun s => s = "recordings/recording.tar.gz"%string)
           (replay_paths t) /\
    (existsb is_start t = true ->
       replay_paths t = ["recordings/recording.tar.gz"%string]).
Proof.
  split; [reflexivity |].
  intros fuel w o w' t H. apply main_main_run, main_configured in H.
  destruct H as [[Hns Hall]
                | (args & mgr & p & cam & imu & vq & iq & r & rest
                   & Hp & -> & Hrest)].
  - split; [exact (Hall _ eq_refl) |]. rewrite Hns. discriminate.
  - cbn in Hp. injection Hp as <-.
    assert (Hr : replay_paths
                   (Ev (NewPipeline true) (Ok mgr) :: Ev (Enter mgr) (Ok p)
                      :: config_trace p cam imu vq iq default_source
                      ++ Ev (Start p) r :: rest) = [default_source]).
    { unfold replay_paths.
      now rewrite (configured_read replay_of mgr p cam imu vq iq
                     default_source r
                     (fun e He => proj1 (config_silent e He)) Hrest). }
    cbn [source]. rewrite Hr. split; [| reflexivity].
    now repeat constructor.
Qed.

(** C8.  When the script starts the pipeline, everything before the call of
    [start] is the description of the graph, call by call: a color camera
    node with board socket CAM_A, resolution 1080p, video size 1920 by 1080
    and 30 frames per second; an IMU node with the raw accelerometer enabled
    at 500 and the raw gyroscope enabled at 400; the replay source given on
    the command line; and one output queue on each node.  No call after
    [start] describes anything, so these are the only two nodes and the only
    two sensor channels of the run. *)
Theorem pipeline_configured_before_start
    (fuel : nat) (argv : list string) (w : World) o w' t :
  main fuel argv w = (o, w', t) ->
  existsb is_start t = true ->
  exists args mgr p cam imu vq iq r rest,
    parse_args argv = inr args /\
    t = Ev (NewPipeline true) (Ok mgr) :: Ev (Enter mgr) (Ok p)
          :: [Ev (Create p ColorCamera) (Ok cam);
              Ev (SetBoardSocket cam CAM_A) (Ok tt);
              Ev (SetResolution cam THE_1080_P) (Ok tt);
              Ev (SetVideoSize cam 1920 1080) (Ok tt);
              Ev (SetFps cam 30) (Ok tt);
              Ev (Create p IMU) (Ok imu);
              Ev (EnableIMUSensor imu ACCELEROMETER_RAW 500) (Ok tt);
              Ev (EnableIMUSensor imu GYROSCOPE_RAW 400) (Ok tt);
              Ev (EnableHolisticReplay p (source args)) (Ok tt);
              Ev (CreateOutputQueue cam preview) (Ok vq);
              Ev (CreateOutputQueue imu out) (Ok iq)]
          ++ Ev (Start p) r :: rest /\
    Forall plain rest /\
    created t = [ColorCamera; IMU] /\
    sensors t = [(ACCELEROMETER_RAW, 500%Z); (GYROSCOPE_RAW, 400%Z)] /\
    replay_paths t = [source args].
Proof.
  intros H Hs. apply main_main_run, main_configured in H.
  destruct H as [[Hns _]
                | (args & mgr & p & cam & imu & vq & iq & r & rest
                   & Hp & -> & Hrest)].
  - rewrite Hns in Hs. discriminate.
  - exists args, mgr, p, cam, imu, vq, iq, r, rest.
    split; [exact Hp |]. split; [reflexivity |]. split; [exact Hrest |].
    unfold created, sensors, replay_paths.
    rewrite (configured_read created_of mgr p cam imu vq iq (source args) r
               (fun e He => proj1 (proj2 (config_silent e He))) Hrest).
    rewrite (configured_read sensor_of mgr p cam imu vq iq (source args) r
               (fun e He => proj2 (proj2 (config_silent e He))) Hrest).
    rewrite (configured_read replay_of mgr p cam imu vq iq (source args) r
               (fun e He => proj1 (config_silent e He)) Hrest).
    repeat split.
Qed.

End Configuration.

(** ** Cancellation *)

Section Cancellation.
Context {Obj : Objects} {C : Collaborators}.

Lemma body_fault_keys (vq iq : QueueObj) e it :
  body_run vq iq (Raised e) it -> keys it = [].
Proof.
  intros H. inversion H as [e' | f e' | f d e' | f d m e' | f d m e' t Hf
                           | f d m e' | ]; subst; try reflexivity.
  - unfold keys. rewrite collect_app. cbn.
    exact (emit_fault_quiet key_of (fun _ _ => eq_refl) Hf).
  - unfold keys. rewrite !collect_app. now rewrite emissions_quiet.
Qed.

(** The cancellation key is seen by the poll that closes the last
    iteration, and by no other. *)
Lemma loop_cancel (p : PipelineObj) (vq iq : QueueObj) n o t :
  loop_run p vq iq n o t ->
  In (ord "q") (keys t) ->
  o = Done tt /\
  exists t0 f d m,
    t = t0 ++ Ev (IsRunning p) (Ok true)
           :: iteration_trace vq iq f d m (ord "q").
Proof.
  induction 1 as [| n e | n | n e t Hb | n f d m | n f d m k o t Hk Hl IH];
    intros Hin.
  - destruct Hin.
  - destruct Hin.
  - destruct Hin.
  - change (In (ord "q") (keys t)) in Hin.
    rewrite (body_fault_keys Hb) in Hin. destruct Hin.
  - split; [reflexivity |]. now exists [], f, d, m.
  - unfold keys in Hin. rewrite lap_read in Hin by reflexivity.
    cbn in Hin. destruct Hin as [Hq | Hin]; [now elim Hk |].
    destruct (IH Hin) as (-> & t0 & f' & d' & m' & ->).
    split; [reflexivity |].
    exists (Ev (IsRunning p) (Ok true) :: iteration_trace vq iq f d m k ++ t0),
      f', d', m'.
    change (Ev (IsRunning p) (Ok true)
              :: iteration_trace vq iq f d m k ++ t0)
      with ((Ev (IsRunning p) (Ok true) :: iteration_trace vq iq f d m k)
              ++ t0).
    now rewrite <- !app_assoc.
Qed.

(** C9.  Cancellation takes effect at the end of an iteration only.  When a
    key poll of the loop has answered the cancellation key, the loop is
    over, and the log ends with a whole iteration: the running check, the
    frame and the batch received, the frame converted and shown, both lines
    of every packet of the batch printed, and last the poll that saw the
    key. *)
Theorem cancellation_closes_a_whole_iteration
    (p : PipelineObj) (vq iq : QueueObj) (fuel : nat) (w : World) o w' t :
  run fuel p vq iq w = (o, w', t) ->
  In (ord "q") (keys t) ->
  o = Done tt /\
  exists t0 f d m,
    t = t0 ++ Ev (IsRunning p) (Ok true)
           :: [Ev (GetFrame vq) (Ok f); Ev (GetImu iq) (Ok d);
               Ev (GetCvFrame f) (Ok m); Ev (Imshow "video" m) (Ok tt)]
           ++ emissions (packets d) ++ [Ev (WaitKey 1) (Ok (ord "q"))] /\
    printed (emissions (packets d)) = flat_map packet_lines (packets d).
Proof.
  intros H Hin. apply run_loop_run in H.
  destruct (loop_cancel H Hin) as (Ho & t0 & f & d & m & Ht).
  split; [exact Ho |]. exists t0, f, d, m.
  split; [exact Ht | apply printed_emissions].
Qed.

(** C10.  The cancellation key is the letter q, code 113.  A pass through
    the body that runs to its end breaks the loop if and only if its poll
    answered 113; then the loop is over there.  After any other answer, -1
    for no key included, the next call of the loop is the running check. *)
Theorem only_q_cancels :
  ord "q" = 113%Z /\
  forall (p : PipelineObj) (vq iq : QueueObj) (fuel : nat)
         (w w1 w2 : World) c it,
    respond (IsRunning p) w = (Ok true, w1) ->
    loop_body vq iq w1 = (Done c, w2, it) ->
    exists k,
      keys it = [k] /\
      final it = Some (Ev (WaitKey 1) (Ok k)) /\
      (c = Break <-> k = 113%Z) /\
      (k = 113%Z ->
         run (S fuel) p vq iq w
         = (Done tt, w2, Ev (IsRunning p) (Ok true) :: it)) /\
      (k <> 113%Z ->
         forall r w3, respond (IsRunning p) w2 = (r, w3) ->
           exists o w' t',
             run (S (S fuel)) p vq iq w
             = (o, w', Ev (IsRunning p) (Ok true) :: it
                         ++ Ev (IsRunning p) r :: t')).
Proof.
  split; [reflexivity |].
  intros p vq iq fuel w w1 w2 c it Hrun Hbody.
  pose proof (loop_body_run _ _ _ Hbody) as Hb.
  apply body_done_inv in Hb. destruct Hb as (f & d & m & k & -> & ->).
  exists k. split; [apply iteration_keys |].
  split; [apply iteration_final |].
  split; [apply ctl_break |]. split.
  - intros Hk. apply ctl_break in Hk.
    unfold run. cbn [while_]. unfold bind at 1. unfold call at 1.
    rewrite Hrun. cbn. unfold bind at 1. rewrite Hbody, Hk. cbn.
    now rewrite app_nil_r.
  - intros Hk r w3 Hnext. apply ctl_next in Hk.
    unfold run. cbn [while_]. unfold bind at 1. unfold call at 1.
    rewrite Hrun. cbn. unfold bind at 1. rewrite Hbody, Hk.
    unfold bind at 1. unfold call at 1. rewrite Hnext.
    destruct r as [[] | e].
    + cbn. match goal with
           | |- context [bind ?m ?f w3] =>
               destruct (bind m f w3) as [[o3 w4] t3]
           end.
      now exists o3, w4, t3.
    + cbn. now exists (Done tt), w3, [].
    + cbn. now exists (Raised e), w3, [].
Qed.

End Cancellation.

(** ** When the loop is over *)

Section Termination.
Context {Obj : Objects} {C : Collaborators}.

(** A run that spends its fuel saw the pipeline running at every check and
    the cancellation key at no poll. *)
Lemma loop_starved (p : PipelineObj) (vq iq : QueueObj) n o t :
  loop_run p vq iq n o t ->
  o = OutOfFuel ->
  Forall (fun b => b = true) (checks t) /\
  Forall (fun k => k <> ord "q") (keys t).
Proof.
  induction 1 as [| n e | n | n e t Hb | n f d m | n f d m k o t Hk Hl IH];
    intros Ho; try discriminate.
  - split; constructor.
  - destruct (IH Ho) as [Hc Hq].
    unfold checks, keys in *. rewrite !lap_read by reflexivity. cbn.
    split; constructor; auto.
Qed.

(** C1.  The loop ends normally exactly when the pipeline reports that it
    is no longer running, at the check that opens an iteration, or when the
    key poll that closes an iteration answers the cancellation key: the log
    of a run ends with one of these two answers if and only if the loop is
    over.  Either answer is enough by itself: a check answered false ends
    the loop there, whatever the keys, and a body that breaks ends the loop
    there, whatever the pipeline would report next.  A run that spends its
    fuel went through that many whole iterations and saw neither answer,
    and a run that is over stays the same with any more fuel. *)
Theorem loop_ends_when_stopped_or_cancelled
    (p : PipelineObj) (vq iq : QueueObj) (fuel : nat) (w : World) o w' t :
  run fuel p vq iq w = (o, w', t) ->
  (o = Done tt <->
     final t = Some (Ev (IsRunning p) (Ok false)) \/
     final t = Some (Ev (WaitKey 1) (Ok (ord "q")))) /\
  (forall w1,
     respond (IsRunning p) w = (Ok false, w1) -> fuel <> 0 ->
     o = Done tt /\ w' = w1 /\ t = [Ev (IsRunning p) (Ok false)]) /\
  (forall w1 w2 it,
     respond (IsRunning p) w = (Ok true, w1) ->
     loop_body vq iq w1 = (Done Break, w2, it) -> fuel <> 0 ->
     o = Done tt /\ w' = w2 /\ t = Ev (IsRunning p) (Ok true) :: it) /\
  (o = OutOfFuel ->
     completed t = fuel /\
     Forall (fun b => b = true) (checks t) /\
     Forall (fun k => k <> ord "q") (keys t)) /\
  (o <> OutOfFuel ->
     forall extra, run (fuel + extra) p vq iq w = (o, w', t)).
Proof.
  intros H. split; [exact (loop_over_iff _ _ _ _ _ H) |].
  split; [| split; [| split]].
  - intros w1 Hstop Hfuel. destruct fuel as [| n]; [now elim Hfuel |].
    unfold run in H. cbn [while_] in H.
    unfold bind at 1 in H. unfold call at 1 in H. rewrite Hstop in H.
    cbn in H. got H. repeat split.
  - intros w1 w2 it Hgo Hbody Hfuel.
    destruct fuel as [| n]; [now elim Hfuel |].
    unfold run in H. cbn [while_] in H.
    unfold bind at 1 in H. unfold call at 1 in H. rewrite Hgo in H.
    cbn in H. unfold bind at 1 in H. rewrite Hbody in H.
    cbn in H. got H. rewrite app_nil_r. repeat split.
  - intros Ho. pose proof (run_loop_run _ _ _ _ _ H) as Hl.
    destruct (loop_retrievals Hl) as (_ & _ & Hn).
    destruct (loop_starved Hl Ho) as [Hc Hq].
    split; [exact (Hn Ho) | now split].
  - intros Ho. now apply run_more_fuel.
Qed.

End Termination.

(** ** The text of a whole run *)

Section Transcript.
Context {Obj : Objects} {C : Collaborators}.

Lemma prefix_of_app {A} (l l1 l2 : list A) :
  prefix_of l1 l2 -> prefix_of (l ++ l1) (l ++ l2).
Proof. intros [r ->]. exists r. now rewrite app_assoc. Qed.

Lemma printed_lap (p : PipelineObj) (vq iq : QueueObj) f d m k t :
  printed (Ev (IsRunning p) (Ok true) :: iteration_trace vq iq f d m k ++ t)
  = flat_map packet_lines (packets d) ++ printed t.
Proof.
  change (printed (iteration_trace vq iq f d m k ++ t)
          = flat_map packet_lines (packets d) ++ printed t).
  unfold printed. rewrite collect_app.
  fold (printed (iteration_trace vq iq f d m k)).
  now rewrite iteration_printed.
Qed.

Lemma batches_lap (p : PipelineObj) (vq iq : QueueObj) f d m k t :
  batches (Ev (IsRunning p) (Ok true) :: iteration_trace vq iq f d m k ++ t)
  = d :: batches t.
Proof. unfold batches. now rewrite lap_read. Qed.

(** What a run of the loop prints, against the batches it received. *)
Lemma loop_transcript (p : PipelineObj) (vq iq : QueueObj) n o t :
  loop_run p vq iq n o t ->
  prefix_of (printed t)
    (flat_map packet_lines (flat_map (@packets _) (batches t))) /\
  ((forall e, o <> Raised e) ->
   printed t = flat_map packet_lines (flat_map (@packets _) (batches t))).
Proof.
  induction 1 as [| n e | n | n e t Hb | n f d m | n f d m k o t Hk Hl IH].
  - split; [now exists [] | reflexivity].
  - split; [now exists [] |]. intros Hn. now elim (Hn e).
  - split; [now exists [] | reflexivity].
  - split; [| intros Hn; now elim (Hn e)].
    change (prefix_of (printed t)
              (flat_map packet_lines (flat_map (@packets _) (batches t)))).
    destruct (body_emissions Hb) as (_ & Hone & Hnone).
    destruct (body_retrievals Hb) as (_ & _ & Hlen & _).
    destruct (batches t) as [| d [| d' l]] eqn:Eb.
    + rewrite (Hnone eq_refl). now exists [].
    + cbn. rewrite app_nil_r. now apply Hone.
    + cbn in Hlen. lia.
  - rewrite <- (app_nil_r (iteration_trace vq iq f d m (ord "q"))).
    rewrite printed_lap, batches_lap. cbn. rewrite !app_nil_r.
    split; [exists []; now rewrite app_nil_r | reflexivity].
  - destruct IH as [Hpre Hall].
    rewrite printed_lap, batches_lap. cbn [flat_map].
    rewrite flat_map_app. split.
    + now apply prefix_of_app.
    + intros Hn. now rewrite (Hall Hn).
Qed.

(** X1.  Over a whole run of the loop, the lines printed are the two lines
    of every packet of every batch received, batch after batch and packet
    after packet, when no call raised; a run ended by a fault printed an
    initial part of these lines. *)
Theorem transcript_follows_the_batches
    (p : PipelineObj) (vq iq : QueueObj) (fuel : nat) (w : World) o w' t :
  run fuel p vq iq w = (o, w', t) ->
  prefix_of (printed t)
    (flat_map packet_lines (flat_map (@packets _) (batches t))) /\
  ((forall e, o <> Raised e) ->
   printed t = flat_map packet_lines (flat_map (@packets _) (batches t)) /\
   List.length (printed t)
   = 2 * List.length (flat_map (@packets _) (batches t))).
Proof.
  intros H. apply run_loop_run, loop_transcript in H.
  destruct H as [Hpre Hall]. split; [exact Hpre |].
  intros Hn. split; [exact (Hall Hn) |].
  rewrite (Hall Hn). apply packet_lines_count.
Qed.

End Transcript.

(** ** What is shown *)

Section Shown.
Context {Obj : Objects} {C : Collaborators}.

Ltac faulted e :=
  intros; exfalso;
  match goal with
  | Hn : forall x, Raised _ <> Raised x |- _ => now apply (Hn e)
  end.

Lemma display_lap {B} (g : Event -> option B) (p : PipelineObj)
    (vq iq : QueueObj) f d m k t :
  (forall s, g (Ev (Print s) (Ok tt)) = None) ->
  g (Ev (IsRunning p) (Ok true)) = None ->
  g (Ev (WaitKey 1) (Ok k)) = None ->
  collect g (Ev (IsRunning p) (Ok true) :: iteration_trace vq iq f d m k ++ t)
  = collect g (iteration_head vq iq f d m) ++ collect g t.
Proof.
  intros Hg Hc Hk. rewrite (lap_read g p vq iq f d m k t Hg).
  cbn [collect]. now rewrite Hc, Hk.
Qed.

(** What one pass through the body converts and shows. *)
Lemma body_display (vq iq : QueueObj) ob it :
  body_run vq iq ob it ->
  Forall (fun s => fst s = "video"%string) (shown it) /\
  map snd (shown it) = converted it /\
  prefix_of (convert_calls it) (frames it) /\
  ((forall e, ob <> Raised e) ->
   convert_calls it = frames it /\
   List.length (converted it) = List.length (frames it)).
Proof.
  intros H. inversion H as [e | f e | f d e | f d m e | f d m e t Hf
                           | f d m e | f d m k]; subst.
  - repeat split; try constructor; try (now exists []).
    all: faulted e.
  - repeat split; try constructor; try (now exists [f]).
    all: faulted e.
  - repeat split; try constructor; try (now exists []).
    all: faulted e.
  - repeat split; try (now repeat constructor); try (now exists []).
    all: faulted e.
  - unfold shown, converted, convert_calls, frames. rewrite !collect_app.
    rewrite (emit_fault_quiet shown_of (fun _ _ => eq_refl) Hf),
      (emit_fault_quiet converted_of (fun _ _ => eq_refl) Hf),
      (emit_fault_quiet convert_call_of (fun _ _ => eq_refl) Hf),
      (emit_fault_quiet frame_of (fun _ _ => eq_refl) Hf).
    cbn. repeat split; try (now repeat constructor); try (now exists []).
    all: faulted e.
  - unfold shown, converted, convert_calls, frames. rewrite !collect_app.
    rewrite !emissions_quiet by reflexivity.
    cbn. repeat split; try (now repeat constructor); try (now exists []).
    all: faulted e.
  - unfold shown, converted, convert_calls, frames, iteration_trace.
    rewrite !collect_app. rewrite !emissions_quiet by reflexivity.
    cbn. repeat split; try (now repeat constructor); now exists [].
Qed.

Lemma loop_display (p : PipelineObj) (vq iq : QueueObj) n o t :
  loop_run p vq iq n o t ->
  Forall (fun s => fst s = "video"%string) (shown t) /\
  map snd (shown t) = converted t /\
  prefix_of (convert_calls t) (frames t) /\
  ((forall e, o <> Raised e) ->
   convert_calls t = frames t /\
   List.length (converted t) = completed t).
Proof.
  induction 1 as [| n e | n | n e t Hb | n f d m | n f d m k o t Hk Hl IH].
  - repeat split; try constructor. now exists [].
  - repeat split; try constructor; try (now exists []).
    all: faulted e.
  - repeat split; try constructor. now exists [].
  - destruct (body_display Hb) as (Hv & Hs & Hp & _).
    repeat split; try assumption.
    all: faulted e.
  - rewrite <- (app_nil_r (iteration_trace vq iq f d m (ord "q"))).
    unfold shown, converted, convert_calls, frames, completed, keys.
    rewrite !display_lap by reflexivity. rewrite lap_read by reflexivity.
    cbn. repeat split; try (now repeat constructor). now exists [].
  - destruct IH as (Hv & Hs & Hp & Hall).
    unfold shown, converted, convert_calls, frames, completed, keys in *.
    rewrite !display_lap by reflexivity. rewrite lap_read by reflexivity.
    cbn. repeat split.
    + now constructor.
    + now rewrite Hs.
    + destruct Hp as [r ->]. now exists r.
    + destruct (Hall H) as [-> _]. reflexivity.
    + destruct (Hall H) as [_ ->]. reflexivity.
Qed.

(** X2.  Every image shown is shown in the window named "video", and the
    images shown are, one for one and in order, the images the conversions
    returned.  The frames converted are, in order, frames the video queue
    delivered: an initial part of them in any run, and all of them, once
    each, when no call raised, one for every completed iteration. *)
Theorem frames_are_shown_in_order
    (p : PipelineObj) (vq iq : QueueObj) (fuel : nat) (w : World) o w' t :
  run fuel p vq iq w = (o, w', t) ->
  Forall (fun s => fst s = "video"%string) (shown t) /\
  map snd (shown t) = converted t /\
  prefix_of (convert_calls t) (frames t) /\
  ((forall e, o <> Raised e) ->
   convert_calls t = frames t /\
   List.length (converted t) = completed t).
Proof.
  intros H. apply run_loop_run in H. exact (loop_display H).
Qed.

End Shown.

(** ** The script as a whole *)

Section Whole.
Context {Obj : Objects} {C : Collaborators}.

Ltac units :=
  repeat match goal with u : unit |- _ => destruct u end.

Ltac next_call H :=
  unfold bind at 1 in H; unfold call at 1 in H; answer_call H.

Lemma body_steps (vq iq : QueueObj) ob it :
  body_run vq iq ob it -> Forall (fun e => step_of e <> 0) it.
Proof.
  assert (Hp : forall t, Forall (fun e => step_of e = 4) t ->
                         Forall (fun e => step_of e <> 0) t).
  { intros t. apply Forall_impl. intros e ->. discriminate. }
  intros H. inversion H as [e | f e | f d e | f d m e | f d m e t Hf
                           | f d m e | f d m k]; subst;
    unfold iteration_trace, iteration_head; rewrite ?Forall_app;
    repeat split;
    try (repeat (constructor; [discriminate |]); constructor);
    try (apply Hp, emissions_print).
  apply Hp. exact (emit_fault_print Hf).
Qed.

(** A call of the loop is a running check or a step of the body. *)
Lemma loop_events (p : PipelineObj) (vq iq : QueueObj) n o t :
  loop_run p vq iq n o t ->
  Forall (fun e => is_check e = true \/ step_of e <> 0) t.
Proof.
  assert (Hb : forall ob it, body_run vq iq ob it ->
                 Forall (fun e => is_check e = true \/ step_of e <> 0) it).
  { intros ob it H. apply body_steps in H. revert H.
    apply Forall_impl. intros e He. now right. }
  induction 1 as [| n e | n | n e t Hr | n f d m | n f d m k o t Hk Hl IH].
  - constructor.
  - repeat constructor.
  - repeat constructor.
  - constructor; [now left | exact (Hb _ _ Hr)].
  - constructor; [now left |].
    exact (Hb _ _ (br_done vq iq f d m (ord "q"))).
  - constructor; [now left |]. apply Forall_app. split; [| exact IH].
    exact (Hb _ _ (br_done vq iq f d m k)).
Qed.

Lemma loop_collect {B} (g : Event -> option B)
    (p : PipelineObj) (vq iq : QueueObj) n o t :
  (forall e, is_check e = true \/ step_of e <> 0 -> g e = None) ->
  loop_run p vq iq n o t -> collect g t = [].
Proof.
  intros Hg H. apply collect_none. apply loop_events in H. revert H.
  apply Forall_impl. exact Hg.
Qed.

Lemma loop_never_exits (e : Event) :
  is_check e = true \/ step_of e <> 0 -> exit_of e = None.
Proof.
  destruct e as [A op r]. destruct op; cbn; intros [H | H];
    try reflexivity; try discriminate; now elim H.
Qed.

(** A block that never called [start] stopped at a call that describes the
    graph: its log holds such calls only, and the last one raised. *)
Lemma block_stopped_early (fuel : nat) (args : Namespace) (p : PipelineObj) :
  forall (w : World) o w' t,
    block fuel args p w = (o, w', t) ->
    existsb is_start t = false ->
    exists e, o = Raised e /\ faults t = [e] /\
              Forall (fun ev => is_config ev = true) t.
Proof.
  intros w o w' t H. unfold block in H.
  do 11 (next_call H;
         [| got H; units; intros _; eexists;
            split; [reflexivity |]; split; [reflexivity |];
            repeat constructor]).
  next_call H.
  - match type of H with
    | context [run fuel p ?vq ?iq ?w1] =>
        destruct (run fuel p vq iq w1) as [[ol wl] tl]
    end.
    got H. cbn. discriminate.
  - got H. cbn. discriminate.
Qed.

(** The script, case by case, with the run of its block. *)
Lemma main_cases (fuel : nat) (argv : list string) :
  forall (w : World) o w' t,
    main fuel argv w = (o, w', t) ->
    (exists e, parse_args argv = inl e /\ o = Raised e /\ t = []) \/
    (exists args e,
       parse_args argv = inr args /\ o = Raised e /\
       t = [Ev (NewPipeline true) (Raise e)]) \/
    (exists args mgr e,
       parse_args argv = inr args /\ o = Raised e /\
       t = [Ev (NewPipeline true) (Ok mgr); Ev (Enter mgr) (Raise e)]) \/
    (exists args mgr p w1 ob wb tb tx,
       parse_args argv = inr args /\
       block fuel args p w1 = (ob, wb, tb) /\
       leave mgr ob o tx /\
       t = Ev (NewPipeline true) (Ok mgr) :: Ev (Enter mgr) (Ok p)
             :: tb ++ tx).
Proof.
  intros w o w' t H. unfold main in H.
  unfold bind at 1 in H.
  destruct (parse_args argv) as [e | args] eqn:Ep; cbn [lift] in H.
  - cbn in H. got H. left. now exists e.
  - unfold ret at 1 in H. cbn [app] in H.
    next_call H; [| got H; right; left; now exists args, e].
    unfold with_ in H. next_call H;
      [| got H; right; right; left; now exists args, a, e].
    match type of H with
    | context [block fuel args ?q ?w1] =>
        destruct (block fuel args q w1) as [[ob wb] tb] eqn:Eb
    end.
    right. right. right.
    destruct ob as [[] | e |].
    + unfold call in H. answer_call H; got H;
        (eexists; eexists; eexists; eexists; eexists; eexists; eexists;
         eexists; split; [reflexivity |]; split; [exact Eb |];
         split; [constructor | reflexivity]).
    + unfold call in H. answer_call H.
      * destruct a1; got H;
          (eexists; eexists; eexists; eexists; eexists; eexists; eexists;
           eexists; split; [reflexivity |]; split; [exact Eb |];
           split; [constructor | reflexivity]).
      * got H.
        eexists; eexists; eexists; eexists; eexists; eexists; eexists;
          eexists; split; [reflexivity |]; split; [exact Eb |];
          split; [constructor | reflexivity].
    + got H.
      eexists; eexists; eexists; eexists; eexists; eexists; eexists;
        eexists; split; [reflexivity |]; split; [exact Eb |];
        split; [constructor | now rewrite app_nil_r].
Qed.

End Whole.

(** ** Leaving the pipeline *)

Section Leaving.
Context {Obj : Objects} {C : Collaborators}.

Lemma config_never_exits (t : list Event) :
  Forall (fun ev => is_config ev = true) t -> exits t = [].
Proof.
  intros H. apply collect_none. revert H. apply Forall_impl.
  intros [A op r]. destruct op; cbn; try reflexivity; discriminate.
Qed.

(** What the block leaves behind for [__exit__]: no call of [__exit__] of
    its own, and the exception it raised, if any. *)
Lemma block_pending (fuel : nat) (args : Namespace) (p : PipelineObj) :
  forall (w : World) ob wb tb,
    block fuel args p w = (ob, wb, tb) ->
    exits tb = [] /\
    pending tb = match ob with Raised e => Some e | _ => None end.
Proof.
  intros w ob wb tb H.
  destruct (existsb is_start tb) eqn:Es.
  - apply block_block_run in H.
    destruct H as [e t Hearly | cam imu vq iq e | cam imu vq iq o t Hl].
    + rewrite (early_not_started Hearly) in Es. discriminate.
    + split; reflexivity.
    + unfold exits, pending, faults. rewrite !collect_app.
      cbn [collect exit_of fault_of config_trace app].
      rewrite (loop_collect exit_of loop_never_exits Hl).
      split; [reflexivity |].
      fold (faults t). rewrite (loop_faults Hl). now destruct o.
  - destruct (block_stopped_early _ _ _ _ H Es) as (e & -> & Hf & Hc).
    split; [exact (config_never_exits Hc) |].
    unfold pending. now rewrite Hf.
Qed.

(** X3.  The [with] statement leaves the pipeline exactly once.  In a run
    of the script that has ended, either the pipeline was never entered
    (the command line was refused, or creating or entering the pipeline
    raised) and [__exit__] is never called, or the last call of the script
    is the one call of [__exit__], on the object [Pipeline(True)] returned,
    with the exception that ended the block, or none if the block ended by
    itself.  The script ends normally if [__exit__] returns and the block
    ended by itself or [__exit__] answered true; it ends with the block's
    exception if [__exit__] answered false, and with the exception of
    [__exit__] if that call raised. *)
Theorem pipeline_is_left_exactly_once
    (fuel : nat) (argv : list string) (w : World) o w' t :
  main fuel argv w = (o, w', t) ->
  o <> OutOfFuel ->
  (exits t = [] /\
   exists e,
     o = Raised e /\
     (t = [] \/ t = [Ev (NewPipeline true) (Raise e)] \/
      exists mgr,
        t = [Ev (NewPipeline true) (Ok mgr); Ev (Enter mgr) (Raise e)])) \/
  (exists mgr p tb r,
     t = Ev (NewPipeline true) (Ok mgr) :: Ev (Enter mgr) (Ok p)
           :: tb ++ [Ev (Exit mgr (pending tb)) r] /\
     exits tb = [] /\
     exits t = [(mgr, pending tb)] /\
     o = match r with
         | Raise e' => Raised e'
         | Ok b =>
             match pending tb with
             | None => Done tt
             | Some e => if b then Done tt else Raised e
             end
         end).
Proof.
  intros H Ho. apply main_cases in H.
  destruct H as [(e & _ & -> & ->)
                | [(args & e & _ & -> & ->)
                  | [(args & mgr & e & _ & -> & ->)
                    | (args & mgr & p & w1 & ob & wb & tb & tx
                       & _ & Hb & Hx & ->)]]].
  - left. split; [reflexivity |]. exists e. split; [reflexivity | now left].
  - left. split; [reflexivity |]. exists e.
    split; [reflexivity | right; now left].
  - left. split; [reflexivity |]. exists e.
    split; [reflexivity | right; right; now exists mgr].
  - right. destruct (block_pending _ _ _ _ Hb) as [He Hp].
    assert (Hexits : forall x r,
              exits (Ev (NewPipeline true) (Ok mgr) :: Ev (Enter mgr) (Ok p)
                       :: tb ++ [Ev (Exit mgr x) r]) = [(mgr, x)]).
    { intros x r. unfold exits in *. cbn [collect exit_of].
      rewrite collect_app, He. reflexivity. }
    destruct Hx as [b | e | e | e | e e' |].
    + exists mgr, p, tb, (Ok b). rewrite Hp.
      repeat split; [exact He | apply Hexits].
    + exists mgr, p, tb, (Raise e). rewrite Hp.
      repeat split; [exact He | apply Hexits].
    + exists mgr, p, tb, (Ok true). rewrite Hp.
      repeat split; [exact He | apply Hexits].
    + exists mgr, p, tb, (Ok false). rewrite Hp.
      repeat split; [exact He | apply Hexits].
    + exists mgr, p, tb, (Raise e'). rewrite Hp.
      repeat split; [exact He | apply Hexits].
    + now elim Ho.
Qed.

End Leaving.

(** ** The source given on the command line *)

Section CommandLine.
Context {Obj : Objects} {C : Collaborators}.







End CommandLine.

(** ** The objects the loop works on *)

Section Wiring.
Context {Obj : Objects} {C : Collaborators}.

Lemma quiet_check_calls (t : list Event) :
  Forall (fun e => is_check e = false) t -> check_calls t = [].
Proof.
  intros H. apply collect_none. revert H. apply Forall_impl.
  intros [A op r]. destruct op; cbn; try reflexivity; discriminate.
Qed.

(** The loop asks its own pipeline and its own two queues, and no other. *)
Lemma loop_wiring (p : PipelineObj) (vq iq : QueueObj) n o t :
  loop_run p vq iq n o t ->
  Forall (fun q => q = vq) (frame_calls t) /\
  Forall (fun q => q = iq) (imu_calls t) /\
  Forall (fun x => x = p) (check_calls t).
Proof.
  induction 1 as [| n e | n | n e t Hb | n f d m | n f d m k o t Hk Hl IH].
  - repeat split; constructor.
  - repeat split; repeat constructor.
  - repeat split; repeat constructor.
  - destruct (body_retrievals Hb) as (Hf & [r Hi] & _).
    pose proof (quiet_check_calls (body_no_check Hb)) as Hc.
    unfold frame_calls, imu_calls, check_calls in *.
    cbn [collect frame_call_of imu_call_of check_call_of].
    rewrite Hf, Hc. repeat split; repeat constructor.
    destruct (collect imu_call_of t) as [| q l]; [constructor |].
    cbn in Hi. injection Hi as <- Hl. destruct l; [| discriminate].
    repeat constructor.
  - rewrite <- (app_nil_r (iteration_trace vq iq f d m (ord "q"))).
    unfold frame_calls, imu_calls, check_calls.
    rewrite !lap_read by reflexivity. cbn.
    repeat split; repeat constructor.
  - destruct IH as (Hf & Hi & Hc).
    unfold frame_calls, imu_calls, check_calls in *.
    rewrite !lap_read by reflexivity. cbn.
    repeat split; now constructor.
Qed.

(** X5.  The loop works on the objects the setup returned.  When the script
    has called [start], every frame is asked of the queue that
    [createOutputQueue] returned for the [preview] output of the camera
    node, every batch of the queue it returned for the [out] output of the
    IMU node, and every running check is asked of the object [__enter__]
    returned, the one the nodes were created on and [start] was called
    on. *)
Theorem loop_works_on_what_setup_returned
    (fuel : nat) (argv : list string) (w : World) o w' t :
  main fuel argv w = (o, w', t) ->
  existsb is_start t = true ->
  exists args mgr p cam imu vq iq r rest,
    t = Ev (NewPipeline true) (Ok mgr) :: Ev (Enter mgr) (Ok p)
          :: config_trace p cam imu vq iq (source args)
          ++ Ev (Start p) r :: rest /\
    Forall (fun q => q = vq) (frame_calls t) /\
    Forall (fun q => q = iq) (imu_calls t) /\
    Forall (fun x => x = p) (check_calls t).
Proof.
  intros H Hs. apply main_main_run in H.
  destruct H as [e' Hp | args e' Hp | args mgr e' Hp
                | args mgr p ob tb o tx Hp Hb Hx]; try discriminate.
  assert (Hq : frame_calls tx = [] /\ imu_calls tx = [] /\
               check_calls tx = [])
    by (destruct Hx; repeat split).
  destruct Hq as (Hxf & Hxi & Hxc).
  destruct Hb as [e' tb Hearly | cam imu vq iq e' | cam imu vq iq ob tl Hl].
  - cbn in Hs. rewrite existsb_app, (early_not_started Hearly) in Hs.
    rewrite (plain_not_started (leave_plain Hx)) in Hs. discriminate.
  - exists args, mgr, p, cam, imu, vq, iq, (Raise e'), tx.
    split; [now rewrite <- app_assoc |].
    unfold frame_calls, imu_calls, check_calls in *.
    cbn [collect frame_call_of imu_call_of check_call_of].
    rewrite !collect_app, Hxf, Hxi, Hxc. cbn.
    repeat split; constructor.
  - exists args, mgr, p, cam, imu, vq, iq, (Ok tt), (tl ++ tx).
    split; [now rewrite <- app_assoc |].
    destruct (loop_wiring Hl) as (Hf & Hi & Hc).
    unfold frame_calls, imu_calls, check_calls in *.
    cbn [collect frame_call_of imu_call_of check_call_of].
    rewrite !collect_app, Hxf, Hxi, Hxc. cbn.
    rewrite !app_nil_r. repeat split; assumption.
Qed.

End Wiring.

(** ** Before the pipeline is started *)

Section BeforeStart.
Context {Obj : Objects} {C : Collaborators}.

Lemma idle_elt (l t0 t1 : list Event) (ev : Event) :
  Forall (fun e => is_check e = false /\ step_of e = 0) l ->
  l = t0 ++ ev :: t1 ->
  is_check ev = true \/ step_of ev <> 0 -> False.
Proof.
  intros Hl -> Hbusy. apply Forall_elt in Hl. destruct Hl as [Hc Hs].
  destruct Hbusy as [Hb | Hb]; [congruence | now apply Hb].
Qed.

Lemma early_idle path (l : list Event) :
  Forall (early path) l ->
  Forall (fun e => is_check e = false /\ step_of e = 0) l.
Proof. apply Forall_impl. now intros x (_ & Hs & Hc & _). Qed.

Lemma leave_idle mgr ob o tx :
  leave mgr ob o tx ->
  Forall (fun e => is_check e = false /\ step_of e = 0) tx.
Proof. destruct 1; repeat constructor. Qed.

Lemma no_start_filter (l : list Event) :
  Forall (fun e => is_start e = false) l -> filter is_start l = [].
Proof.
  induction 1 as [| x l Hx _ IH]; cbn; [reflexivity |]. now rewrite Hx.
Qed.

Lemma plain_no_start (l : list Event) :
  Forall plain l -> Forall (fun e => is_start e = false) l.
Proof. apply Forall_impl. now intros x [_ Hx]. Qed.

Lemma early_no_start path (l : list Event) :
  Forall (early path) l -> Forall (fun e => is_start e = false) l.
Proof. apply Forall_impl. now intros x (Hx & _). Qed.

(** X6.  Nothing of the loop runs unless [start] has returned.  In any run
    of the script, a running check, a queue retrieval, a conversion, a
    display, a print or a key poll comes after a call of [start] that
    returned; [start] is called at most once; and when a call that
    describes the graph raises, [start] is never called. *)
Theorem nothing_runs_unless_started
    (fuel : nat) (argv : list string) (w : World) o w' t :
  main fuel argv w = (o, w', t) ->
  (forall t0 ev t1,
     t = t0 ++ ev :: t1 ->
     is_check ev = true \/ step_of ev <> 0 ->
     existsb start_ok t0 = true) /\
  List.length (filter is_start t) <= 1 /\
  (forall ev,
     In ev t -> is_config ev = true -> fault_of ev <> None ->
     existsb is_start t = false).
Proof.
  intros H. pose proof (main_main_run _ _ _ H) as Hrun.
  split; [| split].
  - intros t0 ev t1 Ht Hbusy.
    destruct Hrun as [e' Hp | args e' Hp | args mgr e' Hp
                     | args mgr p ob tb o tx Hp Hb Hx].
    + now destruct t0.
    + exfalso. eapply idle_elt; [| exact Ht | exact Hbusy].
      repeat constructor.
    + exfalso. eapply idle_elt; [| exact Ht | exact Hbusy].
      repeat constructor.
    + pose proof (leave_idle Hx) as Hq.
      destruct Hb as [e' tb Hearly | cam imu vq iq e'
                     | cam imu vq iq ob tl Hl].
      * exfalso. eapply idle_elt; [| exact Ht | exact Hbusy].
        repeat (constructor; [now split |]).
        apply Forall_app. split; [exact (early_idle Hearly) | exact Hq].
      * exfalso. eapply idle_elt; [| exact Ht | exact Hbusy].
        repeat (constructor; [now split |]). exact Hq.
      * change (Ev (NewPipeline true) (Ok mgr) :: Ev (Enter mgr) (Ok p)
                  :: (config_trace p cam imu vq iq (source args)
                        ++ Ev (Start p) (Ok tt) :: tl) ++ tx)
          with (([Ev (NewPipeline true) (Ok mgr); Ev (Enter mgr) (Ok p)]
                   ++ config_trace p cam imu vq iq (source args)
                   ++ [Ev (Start p) (Ok tt)]) ++ tl ++ tx) in Ht.
        apply locate in Ht. destruct Ht as [[m [Hpre _]] | [m [_ ->]]].
        { exfalso. eapply idle_elt; [| exact Hpre | exact Hbusy].
          repeat constructor. }
        rewrite existsb_app. reflexivity.
  - destruct Hrun as [e' Hp | args e' Hp | args mgr e' Hp
                     | args mgr p ob tb o tx Hp Hb Hx]; cbn; try lia.
    pose proof (no_start_filter (plain_no_start (leave_plain Hx))) as Hq.
    destruct Hb as [e' tb Hearly | cam imu vq iq e'
                   | cam imu vq iq ob tl Hl].
    + rewrite filter_app, Hq.
      rewrite (no_start_filter (early_no_start Hearly)). cbn. lia.
    + rewrite !filter_app, Hq. cbn. lia.
    + rewrite !filter_app, Hq. cbn.
      rewrite (no_start_filter (plain_no_start (loop_plain Hl))). cbn. lia.
  - intros ev Hin Hcfg Hfault.
    apply main_configured in Hrun.
    destruct Hrun as [[Hns _]
                     | (args & mgr & p & cam & imu & vq & iq & r & rest
                        & _ & -> & Hrest)]; [exact Hns |].
    exfalso.
    destruct Hin as [<- | [<- | Hin]]; try discriminate.
    apply in_app_or in Hin. destruct Hin as [Hin | [<- | Hin]].
    + cbn in Hin.
      repeat (destruct Hin as [<- | Hin]; [now apply Hfault |]).
      destruct Hin.
    + discriminate.
    + rewrite Forall_forall in Hrest. destruct (Hrest _ Hin) as [Hc _].
      congruence.
Qed.

End BeforeStart.

(** ** The theorems at work on the scripted collaborator *)

Section Witnesses.
#[local] Existing Instance Scripted.objects.
#[local] Existing Instance Scripted.collaborators.

Lemma loop_ends_when_stopped_or_cancelled_witness :
  exists w' t,
    run 4 0 1 2 (Scripted.session [(-1)%Z; 113%Z] 5) = (Done tt, w', t) /\
    final t = Some (Ev (WaitKey 1) (Ok (ord "q"))) /\
    forall extra,
      run (4 + extra) 0 1 2 (Scripted.session [(-1)%Z; 113%Z] 5)
      = (Done tt, w', t).
Proof.
  eexists. eexists. split; [reflexivity |]. split; [reflexivity |].
  destruct (@loop_ends_when_stopped_or_cancelled Scripted.objects
              Scripted.collaborators 0 1 2 4
              (Scripted.session [(-1)%Z; 113%Z] 5) (Done tt) _ _ eq_refl)
    as (_ & _ & _ & _ & Hmore).
  apply Hmore. discriminate.
Defined.

Lemma one_frame_and_one_batch_per_iteration_witness :
  exists w' t,
    run 2 0 1 2 (Scripted.session [] 5) = (OutOfFuel, w', t) /\
    List.length (frames t) = 2 /\ List.length (batches t) = 2 /\
    started t = 2 /\ completed t = 2 /\
    List.length (iterations t) = 2.
Proof.
  eexists. eexists. split; [reflexivity |].
  match goal with
  | |- List.length (frames ?t) = _ /\ _ =>
      destruct (@one_frame_and_one_batch_per_iteration Scripted.objects
              Scripted.collaborators 0 1 2 2
                  (Scripted.session [] 5) OutOfFuel _ t eq_refl)
        as (_ & Hit & _ & Hok & Hfuel)
  end.
  destruct (Hok ltac:(discriminate)) as (Hf & Hb & Hs).
  specialize (Hfuel eq_refl).
  rewrite Hit, Hf, Hb, Hs, Hfuel. repeat split.
Defined.

Lemma no_fault_is_caught_witness :
  exists w' t,
    main 3 [] (Scripted.session [] 0)
    = (Raised (Error "end of recording"), w', t) /\
    firstn 1 (skipn 15 t)
    = [Ev (GetFrame 3) (Raise (Error "end of recording"))] /\
    exists mgr r,
      skipn 16 t = [Ev (Exit mgr (Some (Error "end of recording"))) r] /\
      (r = Ok false -> Raised (Error "end of recording")
                       = Raised (A := unit) (Error "end of recording")) /\
      (r = Ok true -> Raised (Error "end of recording") = Done tt).
Proof.
  eexists. eexists. split; [reflexivity |]. split; [reflexivity |].
  match goal with
  | |- exists mgr r, skipn 16 ?t = _ /\ _ =>
      apply (proj2 (@no_fault_is_caught Scripted.objects
                      Scripted.collaborators) 3 [] (Scripted.session [] 0) _ _ t
               eq_refl (firstn 15 t)
               (Ev (@GetFrame Scripted.objects 3)
                   (Raise (Error "end of recording")))
               (skipn 16 t) (Error "end of recording"))
  end.
  - reflexivity.
  - reflexivity.
  - discriminate.
Defined.

Lemma steps_of_an_iteration_in_order_witness :
  exists w' t,
    run 1 0 1 2 (Scripted.session [113%Z] 5) = (Done tt, w', t) /\
    List.length (iterations t) = 1 /\
    Forall (fun it =>
              keys it <> [] ->
              exists f d m k, it = iteration_trace 1 2 f d m k)
           (iterations t).
Proof.
  eexists. eexists. split; [reflexivity |]. split; [reflexivity |].
  eapply Forall_impl;
    [| apply (@steps_of_an_iteration_in_order Scripted.objects
              Scripted.collaborators 0 1 2 1
                (Scripted.session [113%Z] 5) (Done tt) _ _ eq_refl)].
  intros it (_ & _ & Hk). exact Hk.
Defined.

Lemma one_emission_per_packet_witness :
  exists w' t,
    run 1 0 1 2 (Scripted.session [113%Z] 5) = (Done tt, w', t) /\
    printed t = ["IMU Accelerometer: 1"; "IMU Gyroscope: 2";
                 "IMU Accelerometer: 3"; "IMU Gyroscope: 4"]%string /\
    Forall (fun it =>
              poll_delays it <> [] ->
              exists d,
                batches it = [d] /\
                printed it = flat_map packet_lines (packets d) /\
                List.length (printed it) = 2 * List.length (packets d))
           (iterations t).
Proof.
  eexists. eexists. split; [reflexivity |]. split; [reflexivity |].
  eapply Forall_impl;
    [| apply (@one_emission_per_packet Scripted.objects
              Scripted.collaborators 0 1 2 1
                (Scripted.session [113%Z] 5) (Done tt) _ _ eq_refl)].
  intros it (Hk & _). exact Hk.
Defined.

Lemma poll_waits_one_unit_witness :
  exists w' t,
    run 3 0 1 2 (Scripted.session [] 5) = (OutOfFuel, w', t) /\
    poll_delays t = [1; 1; 1]%Z /\
    Forall (fun d => d = 1%Z) (poll_delays t).
Proof.
  eexists. eexists. split; [reflexivity |]. split; [reflexivity |].
  apply (@poll_waits_one_unit Scripted.objects
              Scripted.collaborators 0 1 2 3 (Scripted.session [] 5)
           OutOfFuel _ _ eq_refl).
Defined.

Lemma default_source_is_replayed_witness :
  exists w' t,
    main 2 [] (Scripted.session [113%Z] 5) = (Done tt, w', t) /\
    existsb is_start t = true /\
    replay_paths t = ["recordings/recording.tar.gz"%string].
Proof.
  eexists. eexists. split; [reflexivity |]. split; [reflexivity |].
  apply (proj2 (@default_source_is_replayed Scripted.objects
                      Scripted.collaborators) 2 (Scripted.session [113%Z] 5)
           (Done tt) _ _ eq_refl).
  reflexivity.
Defined.

Lemma pipeline_configured_before_start_witness :
  exists w' t,
    main 2 ["--source"; "flight.tar.gz"]%string
      (Scripted.session [113%Z] 5) = (Done tt, w', t) /\
    existsb is_start t = true /\
    created t = [ColorCamera; IMU] /\
    sensors t = [(ACCELEROMETER_RAW, 500%Z); (GYROSCOPE_RAW, 400%Z)].
Proof.
  eexists. eexists. split; [reflexivity |]. split; [reflexivity |].
  destruct (@pipeline_configured_before_start Scripted.objects
              Scripted.collaborators 2
              ["--source"; "flight.tar.gz"]%string
              (Scripted.session [113%Z] 5) (Done tt) _ _ eq_refl eq_refl)
    as (args & mgr & p & cam & imu & vq & iq & r & rest
        & _ & _ & _ & Hc & Hs & _).
  split; [exact Hc | exact Hs].
Defined.

Lemma cancellation_closes_a_whole_iteration_witness :
  exists w' t,
    run 4 0 1 2 (Scripted.session [(-1)%Z; 113%Z] 5) = (Done tt, w', t) /\
    In (ord "q") (keys t) /\
    exists t0 f d m,
      t = t0 ++ Ev (IsRunning 0) (Ok true)
             :: [Ev (GetFrame 1) (Ok f); Ev (GetImu 2) (Ok d);
                 Ev (GetCvFrame f) (Ok m); Ev (Imshow "video" m) (Ok tt)]
             ++ emissions (packets d) ++ [Ev (WaitKey 1) (Ok (ord "q"))] /\
      printed (emissions (packets d)) = flat_map packet_lines (packets d).
Proof.
  eexists. eexists. split; [reflexivity |].
  split; [right; left; reflexivity |].
  apply (@cancellation_closes_a_whole_iteration Scripted.objects
              Scripted.collaborators 0 1 2 4
           (Scripted.session [(-1)%Z; 113%Z] 5) (Done tt) _ _ eq_refl).
  right. left. reflexivity.
Defined.

Lemma only_q_cancels_witness :
  exists w1 w2 it,
    respond (IsRunning 0) (Scripted.session [(-1)%Z] 5) = (Ok true, w1) /\
    loop_body 1 2 w1 = (Done Next, w2, it) /\
    exists k,
      keys it = [k] /\
      final it = Some (Ev (WaitKey 1) (Ok k)) /\
      (Next = Break <-> k = 113%Z).
Proof.
  eexists. eexists. eexists. split; [reflexivity |]. split; [reflexivity |].
  destruct (proj2 (@only_q_cancels Scripted.objects
                      Scripted.collaborators) 0 1 2 0
              (Scripted.session [(-1)%Z] 5) _ _ Next _ eq_refl eq_refl)
    as (k & Hk & Hf & Hc & _).
  exists k. repeat split; try assumption; apply Hc.
Defined.

Lemma transcript_follows_the_batches_witness :
  exists w' t,
    run 2 0 1 2 (Scripted.session [] 5) = (OutOfFuel, w', t) /\
    List.length (batches t) = 2 /\
    printed t = flat_map packet_lines (flat_map (@packets _) (batches t)) /\
    List.length (printed t) = 8.
Proof.
  eexists. eexists. split; [reflexivity |]. split; [reflexivity |].
  destruct (@transcript_follows_the_batches Scripted.objects
              Scripted.collaborators 0 1 2 2 (Scripted.session [] 5)
              OutOfFuel _ _ eq_refl) as [_ Hall].
  destruct (Hall ltac:(discriminate)) as [Hp Hl].
  split; [exact Hp | exact Hl].
Defined.

Lemma frames_are_shown_in_order_witness :
  exists w' t,
    run 2 0 1 2 (Scripted.session [] 5) = (OutOfFuel, w', t) /\
    frames t = [4; 3] /\
    convert_calls t = frames t /\
    map snd (shown t) = converted t /\
    List.length (converted t) = completed t.
Proof.
  eexists. eexists. split; [reflexivity |]. split; [reflexivity |].
  destruct (@frames_are_shown_in_order Scripted.objects
              Scripted.collaborators 0 1 2 2 (Scripted.session [] 5)
              OutOfFuel _ _ eq_refl) as (_ & Hs & _ & Hall).
  destruct (Hall ltac:(discriminate)) as [Hc Hl].
  repeat split; assumption.
Defined.

Lemma pipeline_is_left_exactly_once_witness :
  exists w' t,
    main 3 [] (Scripted.session [] 0)
    = (Raised (Error "end of recording"), w', t) /\
    exits t = [(0, Some (Error "end of recording"))] /\
    exists mgr x, exits t = [(mgr, x)].
Proof.
  eexists. eexists. split; [reflexivity |]. split; [reflexivity |].
  destruct (@pipeline_is_left_exactly_once Scripted.objects
              Scripted.collaborators 3 [] (Scripted.session [] 0)
              (Raised (Error "end of recording")) _ _ eq_refl
              ltac:(discriminate))
    as [[Hnone _] | (mgr & p & tb & r & _ & _ & Hone & _)].
  - discriminate Hnone.
  - exists mgr, (pending tb). exact Hone.
Defined.


Lemma loop_works_on_what_setup_returned_witness :
  exists w' t,
    main 2 [] (Scripted.session [113%Z] 5) = (Done tt, w', t) /\
    frame_calls t = [3] /\ imu_calls t = [4] /\ check_calls t = [0] /\
    exists p vq iq,
      Forall (fun q => q = vq) (frame_calls t) /\
      Forall (fun q => q = iq) (imu_calls t) /\
      Forall (fun x => x = p) (check_calls t).
Proof.
  eexists. eexists. split; [reflexivity |].
  split; [reflexivity |]. split; [reflexivity |]. split; [reflexivity |].
  destruct (@loop_works_on_what_setup_returned Scripted.objects
              Scripted.collaborators 2 [] (Scripted.session [113%Z] 5)
              (Done tt) _ _ eq_refl eq_refl)
    as (args & mgr & p & cam & imu & vq & iq & r & rest & _ & Hf & Hi & Hc).
  exists p, vq, iq. repeat split; assumption.
Defined.

Lemma nothing_runs_unless_started_witness :
  exists w' t,
    main 3 [] (Scripted.session [] 0)
    = (Raised (Error "end of recording"), w', t) /\
    existsb start_ok (firstn 15 t) = true /\
    List.length (filter is_start t) <= 1.
Proof.
  eexists. eexists. split; [reflexivity |].
  match goal with
  | |- existsb start_ok (firstn 15 ?t) = true /\ _ =>
      destruct (@nothing_runs_unless_started Scripted.objects
                  Scripted.collaborators 3 [] (Scripted.session [] 0)
                  _ _ t eq_refl) as (Hbefore & Honce & _)
  end.
  split; [| exact Honce].
  match goal with
  | |- existsb start_ok (firstn 15 ?t) = true =>
      apply (Hbefore (firstn 15 t)
               (Ev (@GetFrame Scripted.objects 3)
                   (Raise (Error "end of recording")))
               (skipn 16 t) eq_refl)
  end.
  right. discriminate.
Defined.

End Witnesses.
